(** * Authorized transport (package aps): token lifecycle and request decoration

    A shallow embedding of [Expired], [authorizedTransport.RoundTrip],
    [Token], [SetToken], [RefreshToken] and [cloneRequest].

    Go pointers are locations in a typed store, [nil] is [None]; maps and
    slices are references, so aliasing between a request and its clone is
    visible.  The two injected collaborators, the [TokenFetcher] and the
    [DefaultTransport], are interfaces and appear as type classes. *)

From stdpp Require Import gmap strings list fin_maps.
From Stdlib Require Import ZArith Lia.

Local Open Scope string_scope.
Local Open Scope list_scope.

(** ** Values *)

Definition loc := positive.

(** A Go pointer (or map reference): [None] is [nil]. *)
Definition ptr := option loc.

(** Go's [error]: [None] is the [nil] error. *)
Definition error := option string.

(** [time.Time], as the number of nanoseconds elapsed since the zero
    instant of the type (January 1, year 1, 00:00:00 UTC). *)
Module time.
Definition Time := Z.
Definition IsZero (x : Time) : bool := (x =? 0)%Z.
Definition Before (x u : Time) : bool := (x <? u)%Z.
End time.

(** [oauth2.Token], with the four fields the transport reads and copies. *)
Module oauth2.
Record Token := mkToken {
  AccessToken : string;
  TokenType : string;
  RefreshToken : string;
  Expiry : time.Time
}.
End oauth2.

(** A slice header [[]string]: backing array, offset in it, length, capacity.
    The nil slice has [arr = None]. *)
Record slice := mkSlice {
  arr : ptr;
  off : nat;
  len : nat;
  cap : nat
}.

(** [http.Request]: [Header] is a reference to a [map[string][]string];
    the other fields stand for the ones the transport only copies. *)
Module http.
Record Request := mkRequest {
  Method : string;
  URL : string;
  Body : ptr;
  Header : ptr
}.
Definition zeroRequest : Request := mkRequest "" "" None None.
End http.

Definition defaultTokenType : string := "Bearer".

(** ** Store *)

Record Mem := mkMem {
  tokens : gmap loc oauth2.Token;
  requests : gmap loc http.Request;
  headers : gmap loc (gmap string slice);
  arrays : gmap loc (list string)
}.

(** [sync.RWMutex] as seen by one goroutine. *)
Record RWMutex := mkMu {
  writer : bool;
  readers : nat
}.

Definition unlocked : RWMutex := mkMu false 0.

(** Calls that leave the transport, in program order. *)
Inductive Event :=
| EvFetch (hint : ptr)
| EvDispatch (req : loc).

(** The [authorizedTransport] struct ([token], [mu]; the fetcher is the type
    class below), the store, the state of the outside world, and the trace
    of outgoing calls. *)
Record State (W : Type) := mkState {
  mem : Mem;
  t_token : ptr;
  t_mu : RWMutex;
  world : W;
  trace : list Event
}.
Arguments mkState {W}.
Arguments mem {W}.
Arguments t_token {W}.
Arguments t_mu {W}.
Arguments world {W}.
Arguments trace {W}.

(** ** Collaborators *)

(** [TokenFetcher.FetchToken], from a token pointer to a pair of a token
    pointer and an error: it may
    change the outside world and the token objects it can reach. *)
Class TokenFetcher (W : Type) :=
  FetchToken : W -> gmap loc oauth2.Token -> ptr -> W * gmap loc oauth2.Token * (ptr * error).

(** [http.RoundTripper.RoundTrip]: by the contract of the interface it reads
    the request and does not modify it. *)
Class RoundTripper (W R : Type) :=
  Transport_RoundTrip : W -> Mem -> loc -> W * (option R * error).

(** [time.Now], read off the outside world. *)
Class Clock (W : Type) :=
  time_Now : W -> time.Time.

(** ** The monad of the embedding: state, and the ways a call can fail to return *)

Inductive fault :=
| NilDeref        (* panic: nil pointer dereference *)
| NilMapWrite     (* panic: assignment to entry in nil map *)
| IndexOutOfRange (* panic: index out of range *)
| Dangling        (* a non-nil pointer without object: unreachable in Go *)
| LockMisuse      (* fatal error: unlock of unlocked mutex *)
| Deadlock.       (* the goroutine blocks on a lock it holds itself *)

Inductive res (S A : Type) :=
| Ok (a : A) (s : S)
| Fault (f : fault).
Arguments Ok {S A}.
Arguments Fault {S A}.

Definition M (W A : Type) := State W -> res (State W) A.

Definition ret {W A} (a : A) : M W A := fun s => Ok a s.

Definition bind {W A B} (c : M W A) (k : A -> M W B) : M W B :=
  fun s => match c s with
           | Ok a s' => k a s'
           | Fault f => Fault f
           end.

Definition fail {W A} (f : fault) : M W A := fun _ => Fault f.

Declare Scope go_scope.
Delimit Scope go_scope with go.
Notation "x <- c ;; k" := (bind c (fun x => k))
  (at level 100, c at next level, right associativity) : go_scope.
Notation "c ;; k" := (bind c (fun _ => k))
  (at level 100, right associativity) : go_scope.
Local Open Scope go_scope.

Definition get {W} : M W (State W) := fun s => Ok s s.
Definition put {W} (s : State W) : M W unit := fun _ => Ok tt s.

Definition set_mem {W} (m : Mem) (s : State W) : State W :=
  mkState m (t_token s) (t_mu s) (world s) (trace s).
Definition set_t_token {W} (p : ptr) (s : State W) : State W :=
  mkState (mem s) p (t_mu s) (world s) (trace s).
Definition set_t_mu {W} (l : RWMutex) (s : State W) : State W :=
  mkState (mem s) (t_token s) l (world s) (trace s).

Definition modify {W} (f : State W -> State W) : M W unit :=
  fun s => Ok tt (f s).

(** A loop over a list, for [range]. *)
Fixpoint for_each {W A} (body : A -> M W unit) (l : list A) : M W unit :=
  match l with
  | [] => ret tt
  | x :: l' => body x ;; for_each body l'
  end.

(** ** Store operations *)

Definition set_tokens (h : gmap loc oauth2.Token) (m : Mem) : Mem :=
  mkMem h (requests m) (headers m) (arrays m).
Definition set_requests (h : gmap loc http.Request) (m : Mem) : Mem :=
  mkMem (tokens m) h (headers m) (arrays m).
Definition set_headers (h : gmap loc (gmap string slice)) (m : Mem) : Mem :=
  mkMem (tokens m) (requests m) h (arrays m).
Definition set_arrays (h : gmap loc (list string)) (m : Mem) : Mem :=
  mkMem (tokens m) (requests m) (headers m) h.

(** Reading through a pointer: [nil] panics. *)
Definition load {W A} (sel : Mem -> gmap loc A) (p : ptr) : M W A :=
  fun s => match p with
           | None => Fault NilDeref
           | Some l => match sel (mem s) !! l with
                       | Some v => Ok v s
                       | None => Fault Dangling
                       end
           end.

(** [&oauth2.Token{...}]: a new object at an unused location. *)
Definition new_token {W} (v : oauth2.Token) : M W loc :=
  fun s => let l := fresh (dom (tokens (mem s))) in
           Ok l (set_mem (set_tokens (<[l := v]> (tokens (mem s))) (mem s)) s).

(** [new(http.Request)] *)
Definition new_request {W} : M W loc :=
  fun s => let l := fresh (dom (requests (mem s))) in
           Ok l (set_mem (set_requests (<[l := http.zeroRequest]> (requests (mem s))) (mem s)) s).

(** [*p = v] on a request *)
Definition store_request {W} (l : loc) (v : http.Request) : M W unit :=
  modify (fun s => set_mem (set_requests (<[l := v]> (requests (mem s))) (mem s)) s).

(** [make(http.Header)] *)
Definition make_header {W} : M W loc :=
  fun s => let l := fresh (dom (headers (mem s))) in
           Ok l (set_mem (set_headers (<[l := ∅]> (headers (mem s))) (mem s)) s).

(** [[]string{v, ...}] *)
Definition new_array {W} (v : list string) : M W loc :=
  fun s => let l := fresh (dom (arrays (mem s))) in
           Ok l (set_mem (set_arrays (<[l := v]> (arrays (mem s))) (mem s)) s).

(** [for k, s := range h]: the entries of a map; a nil map has none. *)
Definition range_map {W} (h : ptr) : M W (list (string * slice)) :=
  match h with
  | None => ret []
  | Some l => hm <- load headers (Some l) ;; ret (map_to_list hm)
  end.

(** [h[k] = v] *)
Definition map_assign {W} (h : ptr) (k : string) (v : slice) : M W unit :=
  fun s => match h with
           | None => Fault NilMapWrite
           | Some l => match headers (mem s) !! l with
                       | Some hm =>
                           Ok tt (set_mem (set_headers (<[l := <[k := v]> hm]> (headers (mem s))) (mem s)) s)
                       | None => Fault Dangling
                       end
           end.

(** ** Mutex operations *)

Definition RLock {W} : M W unit :=
  fun s => if writer (t_mu s) then Fault Deadlock
           else Ok tt (set_t_mu (mkMu false (S (readers (t_mu s)))) s).

Definition RUnlock {W} : M W unit :=
  fun s => match readers (t_mu s) with
           | O => Fault LockMisuse
           | S n => Ok tt (set_t_mu (mkMu (writer (t_mu s)) n) s)
           end.

Definition Lock {W} : M W unit :=
  fun s => if writer (t_mu s) then Fault Deadlock
           else match readers (t_mu s) with
                | O => Ok tt (set_t_mu (mkMu true 0) s)
                | S _ => Fault Deadlock
                end.

Definition Unlock {W} : M W unit :=
  fun s => if writer (t_mu s) then Ok tt (set_t_mu (mkMu false (readers (t_mu s))) s)
           else Fault LockMisuse.

(** ** Specification vocabulary *)

(** The data model's notion of an expired token at instant [n]: the access
    token is empty, or an expiry is set and lies before [n]. *)
Definition token_expired (n : time.Time) (T : oauth2.Token) : Prop :=
  oauth2.AccessToken T = "" \/ (oauth2.Expiry T <> 0%Z /\ (oauth2.Expiry T < n)%Z).

(** The values of a slice, read from its backing array. *)
Definition slice_elems (m : Mem) (s : slice) : list string :=
  match arr s with
  | None => []
  | Some a => take (len s) (drop (off s) (default [] (arrays m !! a)))
  end.

(** [r.Header[k]], as a list of values; [None] when the key is absent. *)
Definition request_header (m : Mem) (r : loc) (k : string) : option (list string) :=
  v ← requests m !! r ;
  h ← http.Header v ;
  hm ← headers m !! h ;
  s ← hm !! k ;
  Some (slice_elems m s).

(** The array cells a slice can reach, up to its capacity. *)
Definition slice_cells (s : slice) : list (loc * nat) :=
  match arr s with
  | None => []
  | Some a => (fun i => (a, off s + i)) <$> seq 0 (cap s)
  end.

Definition disjoint_storage (a b : slice) : Prop :=
  forall c, c ∈ slice_cells a -> c ∉ slice_cells b.

(** The header map a request refers to; a nil map reads as empty. *)
Definition header_map (m : Mem) (v : http.Request) : gmap string slice :=
  match http.Header v with
  | None => ∅
  | Some h => default ∅ (headers m !! h)
  end.

(** The pointers reachable from a request lead to objects: the request
    itself, its header map unless nil, and the backing array of every value
    slice in it.  This holds of every pointer a Go program can build. *)
Definition request_ok (m : Mem) (r : loc) : Prop :=
  exists v, requests m !! r = Some v /\
            forall h, http.Header v = Some h ->
                      exists hm, headers m !! h = Some hm /\
                                 forall k sl a, hm !! k = Some sl -> arr sl = Some a ->
                                                is_Some (arrays m !! a).

(** Every request, header map and array of [m] is still there, unchanged,
    in [m']. *)
Definition store_extends (m m' : Mem) : Prop :=
  requests m ⊆ requests m' /\ headers m ⊆ headers m' /\ arrays m ⊆ arrays m'.

(** Request [r] reads the same in [m'] as in [m]: its fields, and the
    values of each of its headers. *)
Definition request_untouched (m m' : Mem) (r : loc) : Prop :=
  requests m' !! r = requests m !! r /\
  forall k, request_header m' r k = request_header m r k.

(** The store once request [v] has been cloned: one new request and one new
    header map. *)
Definition cloned (m : Mem) (v : http.Request) : Mem :=
  let r2 := fresh (dom (requests m)) in
  let h2 := fresh (dom (headers m)) in
  mkMem (tokens m)
        (<[r2 := http.mkRequest (http.Method v) (http.URL v) (http.Body v) (Some h2)]> (requests m))
        (<[h2 := header_map m v]> (headers m))
        (arrays m).

(** The store once request [v] has been cloned and the clone's
    [Authorization] header set to [value]: one new request, one new header
    map, one new one-element array. *)
Definition authorized (m : Mem) (v : http.Request) (value : string) : Mem :=
  let r2 := fresh (dom (requests m)) in
  let h2 := fresh (dom (headers m)) in
  let a := fresh (dom (arrays m)) in
  mkMem (tokens m)
        (<[r2 := http.mkRequest (http.Method v) (http.URL v) (http.Body v) (Some h2)]> (requests m))
        (<[h2 := <["Authorization" := mkSlice (Some a) 0 1 1]> (header_map m v)]> (headers m))
        (<[a := [value]]> (arrays m)).

(** The header value the format [<Type> <AccessToken>] gives for token [T],
    with [Bearer] for an empty type. *)
Definition authorization_of (T : oauth2.Token) : string :=
  (if decide (oauth2.TokenType T = "") then "Bearer" else oauth2.TokenType T)
  +:+ " " +:+ oauth2.AccessToken T.

(** ** The transport *)

Section Transport.
Context {W R : Type} `{!TokenFetcher W} `{!RoundTripper W R} `{!Clock W}.

Definition now : M W time.Time := fun s => Ok (time_Now (world s)) s.

(** The call [t.fetcher.FetchToken(hint)]. *)
Definition call_FetchToken (hint : ptr) : M W (ptr * error) :=
  fun s => let '(w', h', r) := FetchToken (world s) (tokens (mem s)) hint in
           Ok r (mkState (set_tokens h' (mem s)) (t_token s) (t_mu s) w'
                         (trace s ++ [EvFetch hint])).

(** The call [DefaultTransport.RoundTrip(req)]. *)
Definition call_DefaultTransport (req : ptr) : M W (option R * error) :=
  fun s => match req with
           | None => Fault NilDeref
           | Some l =>
               let '(w', r) := Transport_RoundTrip (world s) (mem s) l in
               Ok r (mkState (mem s) (t_token s) (t_mu s) w'
                             (trace s ++ [EvDispatch l]))
           end.

(** [func Expired(t *oauth2.Token) bool] *)
Definition Expired (t : ptr) : M W bool :=
  tk <- load tokens t ;;
  if decide (oauth2.AccessToken tk = "") then ret true
  else if time.IsZero (oauth2.Expiry tk) then ret false
  else n <- now ;; ret (time.Before (oauth2.Expiry tk) n).

(** The body of [Token], between [RLock] and the deferred [RUnlock]. *)
Definition Token_locked : M W ptr :=
  s <- get ;;
  match t_token s with
  | None => ret None
  | Some l =>
      tk <- load tokens (Some l) ;;
      q <- new_token (oauth2.mkToken (oauth2.AccessToken tk) (oauth2.TokenType tk)
                                     (oauth2.RefreshToken tk) (oauth2.Expiry tk)) ;;
      ret (Some q)
  end.

(** [func (t *authorizedTransport) Token() *oauth2.Token] *)
Definition Token : M W ptr :=
  RLock ;;
  r <- Token_locked ;;
  RUnlock ;;
  ret r.

(** [func (t *authorizedTransport) SetToken(token *oauth2.Token)] *)
Definition SetToken (token : ptr) : M W unit :=
  Lock ;;
  modify (set_t_token token) ;;
  Unlock.

(** [func (t *authorizedTransport) RefreshToken() error] *)
Definition RefreshToken : M W error :=
  Lock ;;
  s <- get ;;
  r <- call_FetchToken (t_token s) ;;
  let (token, err) := r in
  match err with
  | Some e => Unlock ;; ret (Some e)
  | None => modify (set_t_token token) ;; Unlock ;; ret None
  end.

(** [func cloneRequest(r *http.Request) *http.Request] *)
Definition cloneRequest (r : ptr) : M W ptr :=
  r2 <- new_request ;;
  v <- load requests r ;;
  store_request r2 v ;;
  h <- make_header ;;
  store_request r2 (http.mkRequest (http.Method v) (http.URL v) (http.Body v) (Some h)) ;;
  kvs <- range_map (http.Header v) ;;
  for_each (fun kv => map_assign (Some h) kv.1 kv.2) kvs ;;
  ret (Some r2).

(** [http.Header.Set(key, value)], for a key already in canonical form:
    [h[key] = []string{value}]. *)
Definition Header_Set (h : ptr) (key value : string) : M W unit :=
  a <- new_array [value] ;;
  map_assign h key (mkSlice (Some a) 0 1 1).

(** The condition [token == nil || Expired(token)]. *)
Definition nil_or_Expired (token : ptr) : M W bool :=
  match token with
  | None => ret true
  | Some _ => Expired token
  end.

(** [func (t *authorizedTransport) RoundTrip(req *http.Request)
      (resp *http.Response, err error)] *)
Definition RoundTrip (req : ptr) : M W (option R * error) :=
  token <- Token ;;
  stale <- nil_or_Expired token ;;
  refreshed <- (if stale : bool then
                  err <- RefreshToken ;;
                  match err with
                  | Some e => ret (inl e)
                  | None => token' <- Token ;; ret (inr token')
                  end
                else ret (inr token)) ;;
  match refreshed with
  | inl e => ret (None, Some e)
  | inr token =>
      req2 <- cloneRequest req ;;
      tk <- load tokens token ;;
      let typ := if decide (oauth2.TokenType tk = "") then defaultTokenType
                 else oauth2.TokenType tk in
      r2 <- load requests req2 ;;
      Header_Set (http.Header r2) "Authorization" (typ +:+ " " +:+ oauth2.AccessToken tk) ;;
      call_DefaultTransport req2
  end.

(** The state in which the first read of the token leaves the transport. *)
Definition after_Token (s : State W) : State W :=
  match Token s with
  | Ok _ s1 => s1
  | Fault _ => s
  end.

(** What the fetcher answers when a round trip started in [s] calls it. *)
Definition fetcher_answer (s : State W) : W * gmap loc oauth2.Token * (ptr * error) :=
  FetchToken (world s) (tokens (mem (after_Token s))) (t_token s).

(** The transport holds no token, or an expired one. *)
Definition stale (s : State W) : Prop :=
  t_token s = None \/
  exists p T, t_token s = Some p /\ tokens (mem s) !! p = Some T /\
            token_expired (time_Now (world s)) T.

(** The transport holds token [T], which is not expired. *)
Definition holds_valid (s : State W) (T : oauth2.Token) : Prop :=
  exists p, t_token s = Some p /\ tokens (mem s) !! p = Some T /\
          ~ token_expired (time_Now (world s)) T.

(** [*p = v] on a token: what a caller does to the copy it was handed. *)
Definition store_token (p : ptr) (v : oauth2.Token) : M W unit :=
  fun s => match p with
         | None => Fault NilDeref
         | Some l => match tokens (mem s) !! l with
                     | Some _ => Ok tt (set_mem (set_tokens (<[l := v]> (tokens (mem s))) (mem s)) s)
                     | None => Fault Dangling
                     end
         end.

(** [s[i] = x] on a slice of strings. *)
Definition slice_assign (sl : slice) (i : nat) (x : string) : M W unit :=
  fun s => match arr sl with
         | None => Fault NilDeref
         | Some a => match arrays (mem s) !! a with
                     | Some vs =>
                         if decide (i < len sl)%nat
                         then Ok tt (set_mem (set_arrays (<[a := <[off sl + i := x]> vs]> (arrays (mem s))) (mem s)) s)
                         else Fault IndexOutOfRange
                     | None => Fault Dangling
                     end
         end.

End Transport.

(** ** Concurrent round trips

    Several goroutines run [RoundTrip] on one transport.  A goroutine is cut
    at each lock operation and at each call that leaves the transport; the
    store, the mutex, the [token] field and the outside world are shared.
    A lock operation that cannot succeed blocks: the goroutine has no step.
    The mutex of the model lets a reader in whenever no writer holds the
    lock; [sync.RWMutex] also holds readers back while a writer waits, which
    removes schedules and adds none. *)

(** Where a goroutine stands in [RoundTrip]. *)
Inductive pc (R : Type) :=
| AtToken (again : bool)              (* calling t.Token(): line 66, or line 74 when [again] *)
| InToken (again : bool)              (* in Token, read lock held *)
| OutToken (again : bool) (r : ptr)   (* in Token, deferred RUnlock due *)
| InTokenPanic (f : fault)            (* in Token, panicking, deferred RUnlock due *)
| AtCheck (token : ptr)               (* line 67 *)
| AtLock                              (* in RefreshToken, line 116 *)
| AtFetch                             (* line 118, write lock held *)
| InFetch (hint : ptr)                (* inside FetchToken, write lock held *)
| AtStore (token : ptr) (err : error) (* line 119, write lock held *)
| AtUnlock (err : error)              (* deferred Unlock due *)
| AtSend (token : ptr)                (* line 79 *)
| AtDispatch                          (* line 86 *)
| Returned (res : option R * error)
| Panicked (f : fault).
Arguments AtToken {R}.
Arguments InToken {R}.
Arguments OutToken {R}.
Arguments InTokenPanic {R}.
Arguments AtCheck {R}.
Arguments AtLock {R}.
Arguments AtFetch {R}.
Arguments InFetch {R}.
Arguments AtStore {R}.
Arguments AtUnlock {R}.
Arguments AtSend {R}.
Arguments AtDispatch {R}.
Arguments Returned {R}.
Arguments Panicked {R}.

(** A goroutine: its local variable [req] and its position. *)
Record goroutine (R : Type) := mkG {
  g_req : ptr;
  g_pc : pc R
}.
Arguments mkG {R}.
Arguments g_req {R}.
Arguments g_pc {R}.

Record config (W R : Type) := mkConfig {
  shared : State W;
  gs : list (goroutine R)
}.
Arguments mkConfig {W R}.
Arguments shared {W R}.
Arguments gs {W R}.

(** The goroutine holds the write lock. *)
Definition holds_write {R} (p : pc R) : nat :=
  match p with
  | AtFetch | InFetch _ | AtStore _ _ | AtUnlock _ => 1
  | _ => 0
  end.

(** The goroutine holds the read lock. *)
Definition holds_read {R} (p : pc R) : nat :=
  match p with
  | InToken _ | OutToken _ _ | InTokenPanic _ => 1
  | _ => 0
  end.

(** The goroutine is inside a call of the fetcher. *)
Definition in_fetch {R} (p : pc R) : nat :=
  match p with
  | InFetch _ => 1
  | _ => 0
  end.

(** The number of fetcher calls the goroutine may still start. *)
Definition may_fetch {R} (p : pc R) : nat :=
  match p with
  | AtToken false | InToken false | OutToken false _
  | AtCheck _ | AtLock | AtFetch => 1
  | _ => 0
  end.

(** A bound on the number of steps the goroutine has left. *)
Definition steps_left {R} (p : pc R) : nat :=
  match p with
  | AtToken false => 15
  | InToken false => 14
  | OutToken false _ => 13
  | AtCheck _ => 12
  | AtLock => 11
  | AtFetch => 10
  | InFetch _ => 9
  | AtStore _ _ => 8
  | AtUnlock _ => 7
  | AtToken true => 6
  | InToken true => 5
  | OutToken true _ => 4
  | AtSend _ => 3
  | AtDispatch => 2
  | InTokenPanic _ => 1
  | Returned _ | Panicked _ => 0
  end.

Definition finished {R} (p : pc R) : bool :=
  match p with
  | Returned _ | Panicked _ => true
  | _ => false
  end.

(** The number of fetcher calls in a trace. *)
Definition fetch_count (tr : list Event) : nat :=
  sum_list_with (fun e => match e with EvFetch _ => 1 | EvDispatch _ => 0 end) tr.

Section Goroutines.
Context {W R : Type} `{!TokenFetcher W} `{!RoundTripper W R} `{!Clock W}.

(** Entering [FetchToken]: the first half of [call_FetchToken]. *)
Definition fetch_enter (hint : ptr) : M W unit :=
  modify (fun s => mkState (mem s) (t_token s) (t_mu s) (world s)
                           (trace s ++ [EvFetch hint])).

(** Returning from [FetchToken]: the second half of [call_FetchToken]. *)
Definition fetch_leave (hint : ptr) : M W (ptr * error) :=
  fun s => let '(w', h', r) := FetchToken (world s) (tokens (mem s)) hint in
           Ok r (mkState (set_tokens h' (mem s)) (t_token s) (t_mu s) w' (trace s)).

(** Lines 79 to 84 of [RoundTrip]: clone the request and set the header on
    the clone.  The objects written are the goroutine's own. *)
Definition authorize (req token : ptr) : M W ptr :=
  req2 <- cloneRequest req ;;
  tk <- load tokens token ;;
  let typ := if decide (oauth2.TokenType tk = "") then defaultTokenType
             else oauth2.TokenType tk in
  r2 <- load requests req2 ;;
  Header_Set (http.Header r2) "Authorization" (typ +:+ " " +:+ oauth2.AccessToken tk) ;;
  ret req2.

(** One step of a goroutine: run [c]; a lock that is not available blocks;
    any other fault is a panic. *)
Definition advance {A} (c : M W A) (k : A -> goroutine R)
    (on_panic : fault -> goroutine R) (s : State W)
  : option (goroutine R * State W) :=
  match c s with
  | Ok a s' => Some (k a, s')
  | Fault Deadlock => None
  | Fault f => Some (on_panic f, s)
  end.

Definition step1 (g : goroutine R) (s : State W)
  : option (goroutine R * State W) :=
  let req := g_req g in
  let at_ p := mkG req p in
  let panic f := mkG req (Panicked f) in
  match g_pc g with
  | AtToken again =>
      advance RLock (fun _ => at_ (InToken again)) panic s
  | InToken again =>
      advance Token_locked (fun r => at_ (OutToken again r))
              (fun f => at_ (InTokenPanic f)) s
  | OutToken again r =>
      advance RUnlock (fun _ => at_ (if again then AtSend r else AtCheck r))
              panic s
  | InTokenPanic f =>
      advance RUnlock (fun _ => panic f) panic s
  | AtCheck token =>
      advance (nil_or_Expired token)
              (fun stale : bool => at_ (if stale then AtLock else AtSend token))
              panic s
  | AtLock =>
      advance Lock (fun _ => at_ AtFetch) panic s
  | AtFetch =>
      advance (fetch_enter (t_token s)) (fun _ => at_ (InFetch (t_token s)))
              panic s
  | InFetch hint =>
      advance (fetch_leave hint) (fun r => at_ (AtStore r.1 r.2)) panic s
  | AtStore token err =>
      match err with
      | Some _ => Some (at_ (AtUnlock err), s)
      | None => advance (modify (set_t_token token))
                        (fun _ => at_ (AtUnlock None)) panic s
      end
  | AtUnlock err =>
      advance Unlock
              (fun _ => at_ (match err with
                             | Some e => Returned (None, Some e)
                             | None => AtToken true
                             end))
              panic s
  | AtSend token =>
      advance (authorize req token) (fun req2 => mkG req2 AtDispatch) panic s
  | AtDispatch =>
      advance (call_DefaultTransport req) (fun res => at_ (Returned res))
              panic s
  | Returned _ | Panicked _ => None
  end.

(** The scheduler picks a goroutine that can step. *)
Inductive cstep : config W R -> config W R -> Prop :=
| cstep_at i g g' s s' gl :
    gl !! i = Some g ->
    step1 g s = Some (g', s') ->
    cstep (mkConfig s gl) (mkConfig s' (<[i := g']> gl)).

(** [N] round trips start together. *)
Definition start (s : State W) (reqs : list ptr) : config W R :=
  mkConfig s ((fun req => mkG req (AtToken false)) <$> reqs).

(** Running a schedule: the list of goroutines to step, in order.  A pick
    that cannot step is skipped. *)
Fixpoint run_schedule (sched : list nat) (c : config W R) : config W R :=
  match sched with
  | [] => c
  | i :: sched' =>
      match gs c !! i with
      | Some g =>
          match step1 g (shared c) with
          | Some (g', s') => run_schedule sched' (mkConfig s' (<[i := g']> (gs c)))
          | None => run_schedule sched' c
          end
      | None => run_schedule sched' c
      end
  end.

(** No goroutine of [c] can step. *)
Definition quiescent (c : config W R) : Prop :=
  forall g, g ∈ gs c -> step1 g (shared c) = None.

(** A token pointer that is nil or leads to a token already expired at
    instant [n0]. *)
Definition tok_old (n0 : time.Time) (m : Mem) (x : ptr) : Prop :=
  x = None \/
  exists l T, x = Some l /\ tokens m !! l = Some T /\ token_expired n0 T.

(** A token pointer that leads to a token with property [P]. *)
Definition tok_new (P : oauth2.Token -> Prop) (m : Mem) (x : ptr) : Prop :=
  exists l T, x = Some l /\ tokens m !! l = Some T /\ P T.

(** The fetcher always succeeds: it returns a pointer to a token with
    property [P], leaves the token objects it was given as they are, and
    does not move the clock back. *)
Definition good_fetcher (P : oauth2.Token -> Prop) : Prop :=
  forall w h hint,
    exists w' h' p T,
      FetchToken w h hint = (w', h', (Some p, None)) /\
      h ⊆ h' /\ h' !! p = Some T /\ P T /\
      (time_Now w <= time_Now w')%Z.

(** The underlying transport does not move the clock back. *)
Definition steady_transport : Prop :=
  forall w m l, (time_Now w <= time_Now (Transport_RoundTrip (R:=R) w m l).1)%Z.

(** The goroutine has returned after dispatching its clone [r2], which
    carries [Authorization: <Type> <AccessToken>] of a token with
    property [P]. *)
Definition completed (P : oauth2.Token -> Prop) (s : State W) (g : goroutine R) : Prop :=
  exists res r2 T,
    g_pc g = Returned res /\ g_req g = Some r2 /\
    EvDispatch r2 ∈ trace s /\ P T /\
    request_header (mem s) r2 "Authorization" = Some [authorization_of T].

(** *** The transitions of a goroutine, one rule per outcome of a step

    [step1] computes; this relation lists what it can compute, and is what
    the invariants are checked against. *)
Inductive gstep : goroutine R -> State W -> goroutine R -> State W -> Prop :=
| G_RLock req again s :
    writer (t_mu s) = false ->
    gstep (mkG req (AtToken again)) s
          (mkG req (InToken again))
          (set_t_mu (mkMu false (S (readers (t_mu s)))) s)
| G_Read req again s r s' :
    Token_locked s = Ok r s' ->
    gstep (mkG req (InToken again)) s (mkG req (OutToken again r)) s'
| G_ReadPanic req again s f :
    Token_locked s = Fault f ->
    gstep (mkG req (InToken again)) s (mkG req (InTokenPanic f)) s
| G_RUnlock req again r s n :
    readers (t_mu s) = S n ->
    gstep (mkG req (OutToken again r)) s
          (mkG req (if again then AtSend r else AtCheck r))
          (set_t_mu (mkMu (writer (t_mu s)) n) s)
| G_RUnlockPanic req f s n :
    readers (t_mu s) = S n ->
    gstep (mkG req (InTokenPanic f)) s
          (mkG req (Panicked f))
          (set_t_mu (mkMu (writer (t_mu s)) n) s)
| G_RUnlockMisuse req p s :
    holds_read p = 1 -> readers (t_mu s) = 0 ->
    gstep (mkG req p) s (mkG req (Panicked LockMisuse)) s
| G_Check req token s (b : bool) :
    nil_or_Expired token s = Ok b s ->
    gstep (mkG req (AtCheck token)) s
          (mkG req (if b then AtLock else AtSend token)) s
| G_CheckPanic req token s f :
    nil_or_Expired token s = Fault f ->
    gstep (mkG req (AtCheck token)) s (mkG req (Panicked f)) s
| G_Lock req s :
    writer (t_mu s) = false -> readers (t_mu s) = 0 ->
    gstep (mkG req AtLock) s (mkG req AtFetch) (set_t_mu (mkMu true 0) s)
| G_FetchEnter req s :
    gstep (mkG req AtFetch) s
          (mkG req (InFetch (t_token s)))
          (mkState (mem s) (t_token s) (t_mu s) (world s)
                   (trace s ++ [EvFetch (t_token s)]))
| G_FetchLeave req hint s w' h' tk err :
    FetchToken (world s) (tokens (mem s)) hint = (w', h', (tk, err)) ->
    gstep (mkG req (InFetch hint)) s
          (mkG req (AtStore tk err))
          (mkState (set_tokens h' (mem s)) (t_token s) (t_mu s) w' (trace s))
| G_StoreErr req tk e s :
    gstep (mkG req (AtStore tk (Some e))) s (mkG req (AtUnlock (Some e))) s
| G_Store req tk s :
    gstep (mkG req (AtStore tk None)) s
          (mkG req (AtUnlock None)) (set_t_token tk s)
| G_Unlock req err s :
    writer (t_mu s) = true ->
    gstep (mkG req (AtUnlock err)) s
          (mkG req (match err with
                    | Some e => Returned (None, Some e)
                    | None => AtToken true
                    end))
          (set_t_mu (mkMu false (readers (t_mu s))) s)
| G_UnlockMisuse req err s :
    writer (t_mu s) = false ->
    gstep (mkG req (AtUnlock err)) s (mkG req (Panicked LockMisuse)) s
| G_Send req token s req2 s' :
    authorize req token s = Ok req2 s' ->
    gstep (mkG req (AtSend token)) s (mkG req2 AtDispatch) s'
| G_SendPanic req token s f :
    authorize req token s = Fault f ->
    gstep (mkG req (AtSend token)) s (mkG req (Panicked f)) s
| G_Dispatch l s w' res :
    Transport_RoundTrip (world s) (mem s) l = (w', res) ->
    gstep (mkG (Some l) AtDispatch) s
          (mkG (Some l) (Returned res))
          (mkState (mem s) (t_token s) (t_mu s) w' (trace s ++ [EvDispatch l]))
| G_DispatchPanic s :
    gstep (mkG None AtDispatch) s (mkG None (Panicked NilDeref)) s.

(** A computation that touches nothing but the store and never waits for
    the lock. *)
Definition local {A} (c : M W A) : Prop :=
  forall s, match c s with
            | Ok _ s' => exists m', s' = set_mem m' s
            | Fault f => f <> Deadlock
            end.

(** *** Invariants *)

(** The mutex agrees with what the goroutines hold. *)
Definition lock_inv (c : config W R) : Prop :=
  sum_list_with (fun g => holds_write (g_pc g)) (gs c)
    = (if writer (t_mu (shared c)) then 1 else 0) /\
  sum_list_with (fun g => holds_read (g_pc g)) (gs c)
    = readers (t_mu (shared c)) /\
  (writer (t_mu (shared c)) = true -> readers (t_mu (shared c)) = 0).

(** What is known of a goroutine at each position when the fetcher is
    good: its request is sound, and the token it works with is as the
    position requires. *)
Definition goroutine_inv (P : oauth2.Token -> Prop) (n0 : time.Time)
    (s : State W) (g : goroutine R) : Prop :=
  (exists r, g_req g = Some r /\ request_ok (mem s) r) /\
  match g_pc g with
  | Returned _ => completed P s g
  | Panicked _ | InTokenPanic _ => False
  | AtDispatch =>
      exists r2 T, g_req g = Some r2 /\ P T /\
        request_header (mem s) r2 "Authorization" = Some [authorization_of T]
  | OutToken false x | AtCheck x =>
      tok_old n0 (mem s) x \/ tok_new P (mem s) x
  | AtStore tk err => err = None /\ tok_new P (mem s) tk
  | AtUnlock err => err = None /\ tok_new P (mem s) (t_token s)
  | AtToken true | InToken true => tok_new P (mem s) (t_token s)
  | OutToken true x | AtSend x => tok_new P (mem s) x
  | AtToken false | InToken false | AtLock | AtFetch | InFetch _ => True
  end.

(** What is known of the shared state. *)
Definition shared_inv (P : oauth2.Token -> Prop) (n0 : time.Time)
    (s : State W) : Prop :=
  (n0 <= time_Now (world s))%Z /\
  (tok_old n0 (mem s) (t_token s) \/ tok_new P (mem s) (t_token s)).

Definition conc_inv (P : oauth2.Token -> Prop) (n0 : time.Time)
    (c : config W R) : Prop :=
  shared_inv P n0 (shared c) /\
  Forall (goroutine_inv P n0 (shared c)) (gs c).

(** From [s] to [s']: objects stay, the trace grows, and a good stored
    token is followed by a good stored token. *)
Definition evolves (P : oauth2.Token -> Prop) (s s' : State W) : Prop :=
  store_extends (mem s) (mem s') /\
  tokens (mem s) ⊆ tokens (mem s') /\
  (forall e, e ∈ trace s -> e ∈ trace s') /\
  (tok_new P (mem s) (t_token s) -> tok_new P (mem s') (t_token s')).

End Goroutines.

(** ** A concrete transport, on which the statements are exercised

    The outside world is the current time.  oauth2.Token 1 has no expiry, token 2
    expired at instant 50; request 1 has one header, [Accept]. *)

Definition demo_clock : Clock Z := fun w => w.

Definition demo_transport : RoundTripper Z string :=
  fun w _ _ => (w, (Some "200 OK", None)).

(** A fetcher that issues a new token. *)
Definition demo_fetcher : TokenFetcher Z :=
  fun w h _ =>
    let l := fresh (dom h) in
    (w, <[l := oauth2.mkToken "fresh" "" "rt" 0%Z]> h, (Some l, None)).

(** A fetcher that fails. *)
Definition failing_fetcher : TokenFetcher Z :=
  fun w h _ => (w, h, (None, Some "invalid_grant")).

(** A fetcher that returns a nil token and a nil error. *)
Definition nil_fetcher : TokenFetcher Z :=
  fun w h _ => (w, h, (None, None)).

Definition demo_token : oauth2.Token := oauth2.mkToken "abc" "" "" 0%Z.
Definition demo_old_token : oauth2.Token := oauth2.mkToken "old" "MAC" "rt" 50%Z.
Definition demo_request : http.Request := http.mkRequest "GET" "/" None (Some 1%positive).
Definition demo_accept : slice := mkSlice (Some 1%positive) 0 1 1.

Definition demo_mem : Mem :=
  mkMem (<[1%positive := demo_token]> (<[2%positive := demo_old_token]> ∅))
        (<[1%positive := demo_request]> ∅)
        (<[1%positive := <["Accept" := demo_accept]> ∅]> ∅)
        (<[1%positive := ["text/html"]]> ∅).

Definition demo_valid : State Z := mkState demo_mem (Some 1%positive) unlocked 100%Z [].
Definition demo_expired : State Z := mkState demo_mem (Some 2%positive) unlocked 100%Z [].
Definition demo_empty : State Z := mkState demo_mem None unlocked 100%Z [].

(** The reading of "deep copy" under which the value list of every header
    key is duplicated: a value slice of the clone reaches no array cell that
    a value slice of the original reaches. *)
Definition value_lists_duplicated (m m' : Mem) (v v2 : http.Request) : Prop :=
  forall k sl sl2,
    header_map m v !! k = Some sl -> header_map m' v2 !! k = Some sl2 ->
    disjoint_storage sl sl2.

(** Two round trips on request 1, stepped in turn. *)
Definition demo_reqs : list ptr := [Some 1%positive; Some 1%positive].
Definition demo_interleaved : list nat := concat (replicate 40 [0; 1]).

(** Where that schedule ends with the fetcher that issues tokens. *)
Definition demo_done : config Z string :=
  run_schedule (TokenFetcher0 := demo_fetcher) (RoundTripper0 := demo_transport)
               (Clock0 := demo_clock) demo_interleaved
               (start demo_expired demo_reqs).

(** Where it ends with the fetcher that fails. *)
Definition demo_failed : config Z string :=
  run_schedule (TokenFetcher0 := failing_fetcher) (RoundTripper0 := demo_transport)
               (Clock0 := demo_clock) demo_interleaved
               (start demo_expired demo_reqs).

Definition issued_by_demo_fetcher (T : oauth2.Token) : Prop :=
  T = oauth2.mkToken "fresh" "" "rt" 0%Z.

(** ** The constructor of the transport *)

Section Constructor.
Context {W : Type}.

(** [func NewAuthorizedTransport(fetcher TokenFetcher, token *oauth2.Token)
    Transport]: the struct literal sets the fetcher and the token; the mutex
    has its zero value, unlocked.  The store, the outside world and the
    trace are those of the program that makes the call. *)
Definition NewAuthorizedTransport (token : ptr) (s : State W) : State W :=
  mkState (mem s) token unlocked (world s) (trace s).

End Constructor.

(** ** What a finished round trip returns *)

Section Results.
Context {W R : Type} `{!TokenFetcher W} `{!RoundTripper W R} `{!Clock W}.



End Results.

(** ** The provider (aps.go)

    Values only: the provider, its configuration and the user record are
    passed and returned, and the network is a state threaded through the
    calls.  [Config], [Options], [NewConfig], [AuthCodeURL] and [Session]
    belong to the package but not to these files; the first, second and last
    are records with the fields the provider uses, the two functions are
    parameters. *)

(** [goth.User] *)
Module goth.
Record User (Raw : Type) := mkUser {
  RawData : option Raw;
  Provider : string;
  Email : string;
  Name : string;
  FirstName : string;
  LastName : string;
  NickName : string;
  Description : string;
  UserID : string;
  AvatarURL : string;
  Location : string;
  AccessToken : string;
  AccessTokenSecret : string;
  RefreshToken : string;
  ExpiresAt : time.Time
}.
Arguments mkUser {Raw}.
Arguments RawData {Raw}.
Arguments Provider {Raw}.
Arguments Email {Raw}.
Arguments Name {Raw}.
Arguments FirstName {Raw}.
Arguments LastName {Raw}.
Arguments NickName {Raw}.
Arguments Description {Raw}.
Arguments UserID {Raw}.
Arguments AvatarURL {Raw}.
Arguments Location {Raw}.
Arguments AccessToken {Raw}.
Arguments AccessTokenSecret {Raw}.
Arguments RefreshToken {Raw}.
Arguments ExpiresAt {Raw}.
End goth.

(** [strings.Join]: the elements, with the separator between them. *)
Module strings.
Fixpoint Join (elems : list string) (sep : string) : string :=
  match elems with
  | [] => ""
  | [x] => x
  | x :: rest => x +:+ sep +:+ Join rest sep
  end.
End strings.

Module aps.

Definition authURL : string := "http://localhost:9096/authorize".
Definition tokenURL : string := "http://localhost:9096/token".
Definition endpointProfile : string := "http://localhost:9096/userinfo".

(** A call either returns or panics. *)
Inductive outcome (A : Type) :=
| Returns (a : A)
| Panics.
Arguments Returns {A}.
Arguments Panics {A}.

Record Options := mkOptions {
  ClientID : string;
  ClientSecret : string;
  RedirectURL : string;
  Scopes : list string
}.

(** [Config]: the options it points to, and the rest of it. *)
Record Config (X : Type) := mkConfig {
  opts : Options;
  rest : X
}.
Arguments mkConfig {X}.
Arguments opts {X}.
Arguments rest {X}.

(** [oauth2.AuthCodeOption], as [oauth2.SetAuthURLParam] builds it. *)
Record AuthCodeOption := SetAuthURLParam {
  param_key : string;
  param_value : string
}.

Record Session := mkSession {
  AuthURL : string;
  AccessToken : string;
  RefreshToken : string;
  ExpiresAt : time.Time
}.

(** A [goth.Session] interface value: a pointer to a [Session] of this
    package, or anything else. *)
Inductive session_value :=
| aps_session (sess : Session)
| other_session.

Record Provider (X : Type) := mkProvider {
  ClientKey : string;
  Secret : string;
  CallbackURL : string;
  config : option (Config X);
  prompt : option AuthCodeOption
}.
Arguments mkProvider {X}.
Arguments ClientKey {X}.
Arguments Secret {X}.
Arguments CallbackURL {X}.
Arguments config {X}.
Arguments prompt {X}.

(** The functions of the package that build a configuration and an
    authorization URL. *)
Class ConfigLib (X : Type) := {
  NewConfig : Options -> string -> string -> option (Config X) * error;
  AuthCodeURL : option (Config X) -> string -> string * error
}.

(** The network: [http.Get], [ioutil.ReadAll] on a response body and
    [Body.Close]; a response is its body. *)
Class Network (Net Body : Type) := {
  http_Get : Net -> string -> Net * (option Body * error);
  ioutil_ReadAll : Net -> Body -> Net * (string * error);
  Body_Close : Net -> Body -> Net
}.

(** The fields [userFromReader] decodes. *)
Record profile := mkProfile {
  p_id : string;
  p_email : string;
  p_name : string;
  p_given_name : string;
  p_family_name : string;
  p_link : string;
  p_picture : string
}.

(** [url.QueryEscape] and the two uses of [json.Decoder.Decode]: what they
    leave in the target, and the error. *)
Class Codec (Raw : Type) := {
  QueryEscape : string -> string;
  decode_raw : string -> option Raw * error;
  decode_profile : string -> profile * error
}.

(** Calls on the network, in program order. *)
Inductive NetEvent (Body : Type) :=
| NGet (url : string)
| NReadAll (body : Body)
| NClose (body : Body).
Arguments NGet {Body}.
Arguments NReadAll {Body}.
Arguments NClose {Body}.

Section Provider.
Context {X Raw Net Body : Type}
  {CL : ConfigLib X} {NW : Network Net Body} {CD : Codec Raw}.

(** [func (p *Provider) Name() string] *)
Definition Name (p : Provider X) : string := "aps".

(** [func (p *Provider) RefreshTokenAvailable() bool] *)
Definition RefreshTokenAvailable (p : Provider X) : bool := true.

Definition set_Scopes (sc : list string) (c : Config X) : Config X :=
  mkConfig (mkOptions (ClientID (opts c)) (ClientSecret (opts c))
                      (RedirectURL (opts c)) sc) (rest c).

(** [func newConfig(provider *Provider, scopes []string) *Config] *)
Definition newConfig (provider : Provider X) (scopes : list string)
  : outcome (option (Config X)) :=
  let (c, err) := NewConfig (mkOptions (ClientKey provider) (Secret provider)
                                       (CallbackURL provider) [])
                            authURL tokenURL in
  match err with
  | Some _ => Returns c
  | None =>
      match c with
      | None => Panics
      | Some c =>
          if decide (0 < length scopes)
          then Returns (Some (foldl (fun c scope => set_Scopes (Scopes (opts c) ++ [scope]) c)
                                    c scopes))
          else Returns (Some (set_Scopes ["profile"; "email"; "openid"] c))
      end
  end.

(** [func New(clientKey, secret, callbackURL string, scopes ...string) *Provider] *)
Definition New (clientKey secret callbackURL : string) (scopes : list string)
  : outcome (Provider X) :=
  let p := mkProvider clientKey secret callbackURL None None in
  match newConfig p scopes with
  | Returns c => Returns (mkProvider clientKey secret callbackURL c None)
  | Panics => Panics
  end.

(** [func (p *Provider) SetPrompt(prompt ...string)] *)
Definition SetPrompt (prompt_ : list string) (p : Provider X) : Provider X :=
  if decide (length prompt_ = 0) then p
  else mkProvider (ClientKey p) (Secret p) (CallbackURL p) (config p)
                  (Some (SetAuthURLParam "prompt" (strings.Join prompt_ " "))).

(** [func (p *Provider) BeginAuth(state string) (goth.Session, error)]:
    [opts] is built and not used. *)
Definition BeginAuth (p : Provider X) (state : string) : Session * error :=
  let opts : list AuthCodeOption :=
    match prompt p with
    | Some o => [] ++ [o]
    | None => []
    end in
  let (url, err) := AuthCodeURL (config p) state in
  (mkSession url "" "" 0%Z, err).

(** [func userFromReader(reader io.Reader, user *goth.User) error], on the
    bytes the reader holds. *)
Definition userFromReader (bits : string) (user : goth.User Raw)
  : goth.User Raw * error :=
  let (u, err) := decode_profile bits in
  match err with
  | Some e => (user, Some e)
  | None =>
      (goth.mkUser (goth.RawData user) (goth.Provider user)
                   (p_email u) (p_name u) (p_given_name u) (p_family_name u)
                   (p_name u) (goth.Description user) (p_id u) (p_picture u)
                   (goth.Location user) (goth.AccessToken user)
                   (goth.AccessTokenSecret user) (goth.RefreshToken user)
                   (goth.ExpiresAt user),
       None)
  end.

Definition set_RawData (raw : option Raw) (user : goth.User Raw) : goth.User Raw :=
  goth.mkUser raw (goth.Provider user) (goth.Email user) (goth.Name user)
              (goth.FirstName user) (goth.LastName user) (goth.NickName user)
              (goth.Description user) (goth.UserID user) (goth.AvatarURL user)
              (goth.Location user) (goth.AccessToken user)
              (goth.AccessTokenSecret user) (goth.RefreshToken user)
              (goth.ExpiresAt user).

(** [func (p *Provider) FetchUser(session goth.Session) (goth.User, error)] *)
Definition FetchUser (p : Provider X) (session : session_value)
    (net : Net) (log : list (NetEvent Body))
  : outcome (goth.User Raw * error * Net * list (NetEvent Body)) :=
  match session with
  | other_session => Panics
  | aps_session sess =>
      let user := goth.mkUser None (Name p) "" "" "" "" "" "" "" "" ""
                              (AccessToken sess) "" (RefreshToken sess)
                              (ExpiresAt sess) in
      let url := endpointProfile +:+ "?access_token=" +:+ QueryEscape (AccessToken sess) in
      let '(net1, (response, err)) := http_Get net url in
      let log1 := log ++ [NGet url] in
      match err with
      | Some e =>
          match response with
          | Some body => Returns (user, Some e, Body_Close net1 body, log1 ++ [NClose body])
          | None => Returns (user, Some e, net1, log1)
          end
      | None =>
          match response with
          | None => Panics
          | Some body =>
              let '(net2, (bits, err)) := ioutil_ReadAll net1 body in
              let log2 := log1 ++ [NReadAll body] in
              let closed := (Body_Close net2 body, log2 ++ [NClose body]) in
              match err with
              | Some e => Returns (user, Some e, closed.1, closed.2)
              | None =>
                  let (raw, err) := decode_raw bits in
                  let user := set_RawData raw user in
                  match err with
                  | Some e => Returns (user, Some e, closed.1, closed.2)
                  | None =>
                      let (user, err) := userFromReader bits user in
                      Returns (user, err, closed.1, closed.2)
                  end
              end
          end
      end
  end.

End Provider.

End aps.

(** Goroutine 0 of the two round trips, stepped six times: it is inside the
    fetcher. *)
Definition demo_midfetch : config Z string :=
  run_schedule (TokenFetcher0 := demo_fetcher) (RoundTripper0 := demo_transport)
               (Clock0 := demo_clock) [0; 0; 0; 0; 0; 0]
               (start demo_expired demo_reqs).

(** A transport that refuses every request, and where the two round trips
    end with it. *)
Definition refusing_transport : RoundTripper Z string :=
  fun w _ _ => (w, (None, Some "connection refused")).

Definition demo_refused : config Z string :=
  run_schedule (TokenFetcher0 := demo_fetcher) (RoundTripper0 := refusing_transport)
               (Clock0 := demo_clock) demo_interleaved
               (start demo_expired demo_reqs).

(** A concrete provider: a configuration library that keeps the options
    it is given, a network that answers every request with body 7, and a
    codec that finds one fixed profile. *)
Definition demo_ConfigLib : aps.ConfigLib unit :=
  {| aps.NewConfig := fun o _ _ => (Some (aps.mkConfig o tt), None);
     aps.AuthCodeURL := fun _ state => (aps.authURL +:+ "?state=" +:+ state, None) |}.

Definition demo_Network : aps.Network nat nat :=
  {| aps.http_Get := fun n _ => (S n, (Some 7, None));
     aps.ioutil_ReadAll := fun n _ => (S n, ("{}", None));
     aps.Body_Close := fun n _ => S n |}.

Definition demo_Codec : aps.Codec string :=
  {| aps.QueryEscape := fun s => s;
     aps.decode_raw := fun bits => (Some bits, None);
     aps.decode_profile := fun _ =>
       (aps.mkProfile "42" "ann@example.org" "Ann" "A" "B" "link" "pic", None) |}.

Definition demo_provider : aps.Provider unit :=
  aps.mkProvider "key" "secret" "http://localhost/callback" None None.

Definition demo_session : aps.Session :=
  aps.mkSession "" "tok" "rt" 7%Z.
(** ** Basic facts about the monad and the store *)

Lemma bind_Ok {W A B} (c : M W A) (k : A -> M W B) s a s1 :
  c s = Ok a s1 -> bind c k s = k a s1.
Proof. intros H. unfold bind. by rewrite H. Qed.

Lemma bind_Fault {W A B} (c : M W A) (k : A -> M W B) s f :
  c s = Fault f -> bind c k s = Fault f.
Proof. intros H. unfold bind. by rewrite H. Qed.

Lemma bind_inv {W A B} (c : M W A) (k : A -> M W B) s b s' :
  bind c k s = Ok b s' -> exists a s1, c s = Ok a s1 /\ k a s1 = Ok b s'.
Proof. unfold bind. destruct (c s) as [a s1|f]; [eauto | discriminate]. Qed.

Lemma fresh_dom_None {A} (h : gmap loc A) : h !! fresh (dom h) = None.
Proof. apply not_elem_of_dom, is_fresh. Qed.

Lemma insert_fresh_subseteq {A} (h : gmap loc A) (v : A) :
  h ⊆ <[fresh (dom h) := v]> h.
Proof. apply insert_subseteq, fresh_dom_None. Qed.

Lemma Token_eta (T : oauth2.Token) :
  oauth2.mkToken (oauth2.AccessToken T) (oauth2.TokenType T) (oauth2.RefreshToken T) (oauth2.Expiry T) = T.
Proof. by destruct T. Qed.

Lemma set_mem_id {W} (s : State W) : set_mem (mem s) s = s.
Proof. by destruct s. Qed.

Lemma set_headers_id (m : Mem) : set_headers (headers m) m = m.
Proof. by destruct m. Qed.

Section Facts.
Context {W R : Type} `{!TokenFetcher W} `{!RoundTripper W R} `{!Clock W}.
Implicit Types (s : State W) (p q l : loc) (T : oauth2.Token).

  (** *** Expired *)

Lemma Expired_nil s : Expired None s = Fault NilDeref.
  Proof. reflexivity. Qed.

Lemma Expired_eval s p T :
    tokens (mem s) !! p = Some T ->
    exists b, Expired (Some p) s = Ok b s /\
              (b = true <-> token_expired (time_Now (world s)) T).
  Proof.
    intros HT. unfold Expired, bind, load, token_expired. rewrite HT.
    destruct (decide (oauth2.AccessToken T = "")) as [He|He].
    - exists true. split; [done|]. split; auto.
    - unfold time.IsZero. destruct (Z.eqb_spec (oauth2.Expiry T) 0) as [Hz|Hz].
      + exists false. split; [done|]. split; [done|]. intros [?|[? _]]; done.
      + exists (time.Before (oauth2.Expiry T) (time_Now (world s))).
        split; [done|]. unfold time.Before. rewrite Z.ltb_lt.
        split; [auto|]. intros [?|[_ ?]]; done.
  Qed.

(** *** Token *)

Lemma Token_nil s :
  t_token s = None -> writer (t_mu s) = false -> Token s = Ok None s.
Proof.
  destruct s as [m tt [wr rd] w tr]. simpl. intros -> ->. reflexivity.
Qed.

Lemma Token_some s p T :
  t_token s = Some p -> tokens (mem s) !! p = Some T ->
  writer (t_mu s) = false ->
  Token s = Ok (Some (fresh (dom (tokens (mem s)))))
                (set_mem (set_tokens (<[fresh (dom (tokens (mem s))) := T]>
                                        (tokens (mem s))) (mem s)) s).
Proof.
  destruct s as [m tt [wr rd] w tr]. simpl. intros -> HT ->.
  unfold Token, Token_locked, bind, RLock, get, load, new_token, RUnlock, ret. simpl.
  rewrite HT. simpl. by rewrite Token_eta.
Qed.

(** Whatever it returns, [Token] touches nothing but the token objects,
    and only by adding one. *)
Lemma Token_inv s a s' :
  Token s = Ok a s' ->
  exists h, s' = set_mem (set_tokens h (mem s)) s /\ tokens (mem s) ⊆ h /\
            match a with
            | None => t_token s = None
            | Some q => exists p T, t_token s = Some p /\
                                    tokens (mem s) !! p = Some T /\
                                    h !! q = Some T
            end.
Proof.
  destruct s as [[tk rq hd ar] tt [wr rd] w tr].
  unfold Token, Token_locked, bind, RLock, get, load, new_token, RUnlock, ret. simpl.
  destruct wr; [discriminate|]. simpl.
  destruct tt as [p|]; simpl.
  - destruct (tk !! p) as [T|] eqn:HT; simpl; [|discriminate].
    intros [= <- <-]. eexists. split; [reflexivity|].
    split; [apply insert_fresh_subseteq|].
    exists p, T. rewrite Token_eta. split; [done|]. split; [done|].
    apply lookup_insert_eq.
  - intros [= <- <-]. exists tk. done.
Qed.

(** *** RefreshToken *)

Lemma RefreshToken_eval s w' h' tk err :
  t_mu s = unlocked ->
  FetchToken (world s) (tokens (mem s)) (t_token s) = (w', h', (tk, err)) ->
  RefreshToken s =
    Ok err (mkState (set_tokens h' (mem s))
                    (match err with Some _ => t_token s | None => tk end)
                    unlocked w' (trace s ++ [EvFetch (t_token s)])).
Proof.
  destruct s as [m tt mu w tr]. simpl. intros -> HF.
  unfold RefreshToken, bind, Lock, get, call_FetchToken. simpl.
  rewrite HF. destruct err; reflexivity.
Qed.

(** Whatever it returns, [RefreshToken] leaves requests, header maps and
    arrays alone. *)
Lemma RefreshToken_inv s e s' :
  RefreshToken s = Ok e s' ->
  exists h, mem s' = set_tokens h (mem s) /\
            trace s' = trace s ++ [EvFetch (t_token s)].
Proof.
  destruct s as [m tt [wr rd] w tr].
  unfold RefreshToken, bind, Lock, get, call_FetchToken. simpl.
  destruct wr; [discriminate|]. destruct rd; [|discriminate]. simpl.
  destruct (FetchToken w (tokens m) tt) as [[w' h'] [tk err]].
  destruct err; simpl; intros [= <- <-]; by exists h'.
Qed.

(** *** cloneRequest *)

Lemma for_each_assign (h : loc) (kvs : list (string * slice)) s hm :
  headers (mem s) !! h = Some hm ->
  for_each (fun kv => map_assign (Some h) kv.1 kv.2) kvs s =
    Ok tt (set_mem (set_headers
                      (<[h := foldl (fun acc kv => <[kv.1 := kv.2]> acc) hm kvs]>
                         (headers (mem s))) (mem s)) s).
Proof.
  revert s hm. induction kvs as [|[k v] kvs IH]; intros s hm Hh; simpl.
  - rewrite insert_id by done. by rewrite set_headers_id, set_mem_id.
  - unfold bind, map_assign at 1. rewrite Hh.
    rewrite (IH _ (<[k := v]> hm)) by (simpl; apply lookup_insert_eq).
    simpl. by rewrite insert_insert_eq.
Qed.

Lemma foldl_insert_list_to_map (kvs : list (string * slice)) (acc : gmap string slice) :
  NoDup kvs.*1 ->
  foldl (fun a kv => <[kv.1 := kv.2]> a) acc kvs = list_to_map kvs ∪ acc.
Proof.
  revert acc. induction kvs as [|[k v] kvs IH]; intros acc Hnd.
  - simpl. by rewrite (left_id_L ∅ (∪)).
  - rewrite fmap_cons in Hnd. apply NoDup_cons in Hnd as [Hk Hnd].
    rewrite list_to_map_cons. cbn [foldl]. rewrite IH by done.
    apply map_eq. intros i.
    rewrite lookup_union, lookup_union.
    destruct (decide (k = i)) as [->|Hne].
    + cbn [fst snd] in *. rewrite !lookup_insert_eq.
      rewrite (not_elem_of_list_to_map_1 kvs i) by done.
      by destruct (acc !! i).
    + cbn [fst snd]. by rewrite !lookup_insert_ne.
Qed.

(** The [range] loop of [cloneRequest] rebuilds the map it ranges over:
    same keys, each bound to the same slice header. *)
Lemma foldl_insert_map_to_list (hm : gmap string slice) :
  foldl (fun a kv => <[kv.1 := kv.2]> a) ∅ (map_to_list hm) = hm.
Proof.
  rewrite foldl_insert_list_to_map by apply NoDup_fst_map_to_list.
  by rewrite list_to_map_to_list, (right_id_L ∅ (∪)).
Qed.

Lemma cloneRequest_eval s r v :
  requests (mem s) !! r = Some v ->
  (forall h, http.Header v = Some h -> is_Some (headers (mem s) !! h)) ->
  cloneRequest (Some r) s =
    Ok (Some (fresh (dom (requests (mem s))))) (set_mem (cloned (mem s) v) s).
Proof.
  destruct s as [[tk rq hd ar] tt mu w tr]. simpl. intros Hr Hh.
  assert (Hne : fresh (dom rq) <> r).
  { intros <-. by rewrite fresh_dom_None in Hr. }
  unfold cloneRequest, bind, new_request, load, store_request, modify,
    make_header, ret. simpl.
  rewrite lookup_insert_ne, Hr by done. simpl.
  unfold cloned, header_map. simpl.
  destruct (http.Header v) as [h|] eqn:HH; simpl.
  - destruct (Hh h eq_refl) as [hm Hhm].
    assert (Hne' : fresh (dom hd) <> h).
    { intros <-. by rewrite fresh_dom_None in Hhm. }
    unfold load, bind. simpl. rewrite lookup_insert_ne, Hhm by done. simpl.
    rewrite (for_each_assign _ _ _ ∅) by (simpl; apply lookup_insert_eq).
    simpl. rewrite foldl_insert_map_to_list.
    by rewrite !insert_insert_eq.
  - by rewrite !insert_insert_eq.
Qed.

(** *** Decoration and dispatch *)

Lemma request_ok_lookup (m : Mem) r :
  request_ok m r ->
  exists v, requests m !! r = Some v /\
            forall h, http.Header v = Some h -> is_Some (headers m !! h).
Proof.
  intros (v & Hv & Hh). exists v. split; [done|].
  intros h HH. destruct (Hh h HH) as (hm & -> & _). eauto.
Qed.

Lemma request_ok_set_tokens (m : Mem) h r :
  request_ok (set_tokens h m) r <-> request_ok m r.
Proof. by destruct m. Qed.

Lemma store_extends_refl (m : Mem) : store_extends m m.
Proof. by repeat split. Qed.

Lemma store_extends_trans (m1 m2 m3 : Mem) :
  store_extends m1 m2 -> store_extends m2 m3 -> store_extends m1 m3.
Proof.
  intros (? & ? & ?) (? & ? & ?). repeat split; by etrans.
Qed.

Lemma store_extends_set_tokens (m : Mem) h : store_extends m (set_tokens h m).
Proof. by destruct m. Qed.

Lemma store_extends_authorized (m : Mem) v value :
  (forall h, http.Header v = Some h -> is_Some (headers m !! h)) ->
  store_extends m (authorized m v value).
Proof.
  intros _. unfold authorized, store_extends. simpl.
  repeat split; apply insert_fresh_subseteq.
Qed.

(** A request whose pointers are sound reads the same in any extension of
    the store. *)
Lemma store_extends_untouched (m m' : Mem) r :
  request_ok m r -> store_extends m m' -> request_untouched m m' r.
Proof.
  intros (v & Hv & Hh) (Hrq & Hhd & Har).
  pose proof (lookup_weaken _ _ _ _ Hv Hrq) as Hv'.
  split; [by rewrite Hv, Hv'|].
  intros k. unfold request_header. rewrite Hv, Hv'. simpl.
  destruct (http.Header v) as [h|] eqn:HH; [|done]. simpl.
  destruct (Hh h eq_refl) as (hm & Hhm & Hsl).
  rewrite Hhm, (lookup_weaken _ _ _ _ Hhm Hhd). simpl.
  destruct (hm !! k) as [sl|] eqn:Hk; [|done]. simpl.
  f_equal. unfold slice_elems.
  destruct (arr sl) as [a|] eqn:Ha; [|done].
  destruct (Hsl k sl a Hk Ha) as [vs Hvs].
  by rewrite Hvs, (lookup_weaken _ _ _ _ Hvs Har).
Qed.

Lemma authorized_header (m : Mem) v value :
  request_header (authorized m v value) (fresh (dom (requests m))) "Authorization"
  = Some [value].
Proof.
  unfold request_header, authorized, slice_elems. simpl.
  rewrite lookup_insert_eq. simpl. rewrite lookup_insert_eq. simpl.
  rewrite lookup_insert_eq. simpl. by rewrite lookup_insert_eq.
Qed.

Lemma Header_Set_eval s h hm key value :
  headers (mem s) !! h = Some hm ->
  Header_Set (Some h) key value s =
    Ok tt (set_mem
             (mkMem (tokens (mem s)) (requests (mem s))
                    (<[h := <[key := mkSlice (Some (fresh (dom (arrays (mem s))))) 0 1 1]> hm]>
                       (headers (mem s)))
                    (<[fresh (dom (arrays (mem s))) := [value]]> (arrays (mem s)))) s).
Proof.
  destruct s as [[tk rq hd ar] tt mu w tr]. simpl. intros Hh.
  unfold Header_Set, bind, new_array, map_assign. simpl. by rewrite Hh.
Qed.

(** The part of [RoundTrip] after the token has been settled, for a token
    pointer that leads to [T]. *)
Lemma send_eval s r v q T :
  requests (mem s) !! r = Some v ->
  (forall h, http.Header v = Some h -> is_Some (headers (mem s) !! h)) ->
  tokens (mem s) !! q = Some T ->
  (req2 <- cloneRequest (Some r) ;;
   tk <- load tokens (Some q) ;;
   let typ := if decide (oauth2.TokenType tk = "") then defaultTokenType
              else oauth2.TokenType tk in
   r2 <- load requests req2 ;;
   Header_Set (http.Header r2) "Authorization" (typ +:+ " " +:+ oauth2.AccessToken tk) ;;
   call_DefaultTransport (R:=R) req2) s =
  let m' := authorized (mem s) v (authorization_of T) in
  let r2 := fresh (dom (requests (mem s))) in
  Ok (Transport_RoundTrip (world s) m' r2).2
     (mkState m' (t_token s) (t_mu s) (Transport_RoundTrip (world s) m' r2).1
              (trace s ++ [EvDispatch r2])).
Proof.
  intros Hr Hh HT.
  rewrite (bind_Ok _ _ _ _ _ (cloneRequest_eval s r v Hr Hh)).
  destruct s as [[tk rq hd ar] tt mu w tr]. simpl in *.
  unfold bind at 1. unfold load at 1. simpl. rewrite HT.
  unfold bind at 1. unfold load at 1. simpl. rewrite lookup_insert_eq.
  cbn [http.Header].
  erewrite bind_Ok; last first.
  { apply Header_Set_eval. simpl. apply lookup_insert_eq. }
  unfold call_DefaultTransport, authorized, authorization_of, defaultTokenType.
  simpl. rewrite insert_insert_eq.
  by destruct (Transport_RoundTrip _ _ _) as [w' res].
Qed.

(** The same part for a nil token: the clone is made, then
    [token.TokenType] panics. *)
Lemma send_nil s r v :
  requests (mem s) !! r = Some v ->
  (forall h, http.Header v = Some h -> is_Some (headers (mem s) !! h)) ->
  (req2 <- cloneRequest (Some r) ;;
   tk <- load tokens None ;;
   let typ := if decide (oauth2.TokenType tk = "") then defaultTokenType
              else oauth2.TokenType tk in
   r2 <- load requests req2 ;;
   Header_Set (http.Header r2) "Authorization" (typ +:+ " " +:+ oauth2.AccessToken tk) ;;
   call_DefaultTransport (R:=R) req2) s = Fault NilDeref.
Proof.
  intros Hr Hh.
  by rewrite (bind_Ok _ _ _ _ _ (cloneRequest_eval s r v Hr Hh)).
Qed.

(** *** RoundTrip *)

Lemma Expired_state s (t : ptr) b s' : Expired t s = Ok b s' -> s' = s.
Proof.
  unfold Expired, bind, load, now, ret.
  destruct t as [l|]; [|discriminate].
  destruct (tokens (mem s) !! l) as [T|]; [|discriminate].
  destruct (decide _); [by intros [= _ <-]|].
  destruct (time.IsZero _); by intros [= _ <-].
Qed.

Lemma nil_or_Expired_state s (t : ptr) b s' :
  nil_or_Expired t s = Ok b s' -> s' = s.
Proof.
  destruct t; simpl; [apply Expired_state|]. by intros [= _ <-].
Qed.

Lemma after_Token_eq s tk s1 : Token s = Ok tk s1 -> after_Token s = s1.
Proof. intros H. unfold after_Token. by rewrite H. Qed.

(** The first two lines of [RoundTrip] on a transport whose token is
    missing or expired: the condition of the [if] is true. *)
Lemma check_stale s :
  writer (t_mu s) = false -> stale s ->
  exists tk h,
    Token s = Ok tk (set_mem (set_tokens h (mem s)) s) /\
    nil_or_Expired tk (set_mem (set_tokens h (mem s)) s)
      = Ok true (set_mem (set_tokens h (mem s)) s).
Proof.
  intros Hmu [Hnil|(p & T & Hp & HT & Hexp)].
  - exists None, (tokens (mem s)).
    replace (set_mem _ s) with s by (by destruct s as [[] ? ? ? ?]).
    split; [by apply Token_nil|done].
  - eexists _, _. split; [by apply (Token_some s p T)|].
    set (s1 := set_mem _ s).
    destruct (Expired_eval s1 (fresh (dom (tokens (mem s)))) T)
      as (b & Hb & Hiff).
    { subst s1. simpl. apply lookup_insert_eq. }
    simpl. rewrite Hb. f_equal. apply Hiff. by destruct s.
Qed.

(** The same two lines on a transport that holds a valid token [T]: the
    condition is false, and the copy read leads to [T]. *)
Lemma check_valid s T :
  writer (t_mu s) = false -> holds_valid s T ->
  exists q h,
    Token s = Ok (Some q) (set_mem (set_tokens h (mem s)) s) /\
    nil_or_Expired (Some q) (set_mem (set_tokens h (mem s)) s)
      = Ok false (set_mem (set_tokens h (mem s)) s) /\
    h !! q = Some T.
Proof.
  intros Hmu (p & Hp & HT & Hexp).
  eexists _, _. split; [by apply (Token_some s p T)|].
  set (s1 := set_mem _ s).
  destruct (Expired_eval s1 (fresh (dom (tokens (mem s)))) T)
    as (b & Hb & Hiff).
  { subst s1. simpl. apply lookup_insert_eq. }
  split; [|apply lookup_insert_eq].
  simpl. rewrite Hb. f_equal. destruct b; [|done].
  exfalso. apply Hexp. replace (world s) with (world s1) by (by destruct s).
  by apply Hiff.
Qed.

(** Refresh fails: the error comes back, nothing is sent, the [token]
    field keeps its value, the lock is released. *)
Lemma RoundTrip_refresh_failed s req w' h' tk e :
  t_mu s = unlocked -> stale s ->
  fetcher_answer s = (w', h', (tk, Some e)) ->
  RoundTrip (R:=R) req s =
    Ok (None, Some e)
       (mkState (set_tokens h' (mem s)) (t_token s) unlocked w'
                (trace s ++ [EvFetch (t_token s)])).
Proof.
  intros Hmu Hst HF.
  destruct (check_stale s) as (tk0 & h & HT & HE); [by rewrite Hmu|done|].
  unfold fetcher_answer in HF. rewrite (after_Token_eq _ _ _ HT) in HF.
  unfold RoundTrip.
  rewrite (bind_Ok _ _ _ _ _ HT), (bind_Ok _ _ _ _ _ HE).
  erewrite bind_Ok; last first.
  { erewrite bind_Ok; last first.
    { apply RefreshToken_eval; [by destruct s|]. destruct s; exact HF. }
    reflexivity. }
  destruct s as [[] ? ? ? ?]. reflexivity.
Qed.

(** Refresh succeeds: the rest of [RoundTrip] runs in the state where the
    [token] field is what the fetcher returned. *)
Lemma RoundTrip_refreshed s req w' h' tk :
  t_mu s = unlocked -> stale s ->
  fetcher_answer s = (w', h', (tk, None)) ->
  RoundTrip (R:=R) req s =
    (token <- Token ;;
     req2 <- cloneRequest req ;;
     tk <- load tokens token ;;
     let typ := if decide (oauth2.TokenType tk = "") then defaultTokenType
                else oauth2.TokenType tk in
     r2 <- load requests req2 ;;
     Header_Set (http.Header r2) "Authorization" (typ +:+ " " +:+ oauth2.AccessToken tk) ;;
     call_DefaultTransport req2)
      (mkState (set_tokens h' (mem s)) tk unlocked w'
               (trace s ++ [EvFetch (t_token s)])).
Proof.
  intros Hmu Hst HF.
  destruct (check_stale s) as (tk0 & h & HT & HE); [by rewrite Hmu|done|].
  unfold fetcher_answer in HF. rewrite (after_Token_eq _ _ _ HT) in HF.
  unfold RoundTrip.
  rewrite (bind_Ok _ _ _ _ _ HT), (bind_Ok _ _ _ _ _ HE).
  assert (HR : RefreshToken (set_mem (set_tokens h (mem s)) s) =
               Ok None (mkState (set_tokens h' (mem s)) tk unlocked w'
                                (trace s ++ [EvFetch (t_token s)]))).
  { erewrite RefreshToken_eval; [|by destruct s|destruct s; exact HF].
    by destruct s as [[] ? ? ? ?]. }
  unfold bind at 1. unfold bind at 1. rewrite HR.
  unfold bind, ret.
  match goal with |- context [Token ?x] => by destruct (Token x) end.
Qed.

(** Refresh succeeds with a non-nil token: the request is sent, authorized
    with the token the fetcher returned. *)
Lemma RoundTrip_refresh_sent s r v w' h' p2 T2 :
  t_mu s = unlocked -> stale s ->
  requests (mem s) !! r = Some v ->
  (forall h, http.Header v = Some h -> is_Some (headers (mem s) !! h)) ->
  fetcher_answer s = (w', h', (Some p2, None)) -> h' !! p2 = Some T2 ->
  RoundTrip (R:=R) (Some r) s =
    let m' := authorized (set_tokens (<[fresh (dom h') := T2]> h') (mem s)) v
                         (authorization_of T2) in
    let r2 := fresh (dom (requests (mem s))) in
    Ok (Transport_RoundTrip w' m' r2).2
       (mkState m' (Some p2) unlocked (Transport_RoundTrip w' m' r2).1
                ((trace s ++ [EvFetch (t_token s)]) ++ [EvDispatch r2])).
Proof.
  intros Hmu Hst Hr Hh HF HT2.
  rewrite (RoundTrip_refreshed s _ w' h' (Some p2)) by done.
  erewrite bind_Ok; last first.
  { apply (Token_some _ p2 T2); [done|by destruct s as [[] ? ? ? ?]|done]. }
  erewrite (send_eval _ r v _ T2).
  - destruct s as [[] ? ? ? ?]. reflexivity.
  - by destruct s as [[] ? ? ? ?].
  - by destruct s as [[] ? ? ? ?].
  - destruct s as [[] ? ? ? ?]. simpl. apply lookup_insert_eq.
Qed.

(** Refresh succeeds with a nil token: [token.TokenType] panics. *)
Lemma RoundTrip_refresh_nil s r v w' h' :
  t_mu s = unlocked -> stale s ->
  requests (mem s) !! r = Some v ->
  (forall h, http.Header v = Some h -> is_Some (headers (mem s) !! h)) ->
  fetcher_answer s = (w', h', (None, None)) ->
  RoundTrip (R:=R) (Some r) s = Fault NilDeref.
Proof.
  intros Hmu Hst Hr Hh HF.
  rewrite (RoundTrip_refreshed s _ w' h' None) by done.
  erewrite bind_Ok; last by apply Token_nil.
  apply (send_nil _ r v); by destruct s as [[] ? ? ? ?].
Qed.

(** A valid token: no refresh, the request is sent with the stored token. *)
Lemma RoundTrip_valid_sent s r v T :
  writer (t_mu s) = false -> holds_valid s T ->
  requests (mem s) !! r = Some v ->
  (forall h, http.Header v = Some h -> is_Some (headers (mem s) !! h)) ->
  exists h,
    RoundTrip (R:=R) (Some r) s =
      let m' := authorized (set_tokens h (mem s)) v (authorization_of T) in
      let r2 := fresh (dom (requests (mem s))) in
      Ok (Transport_RoundTrip (world s) m' r2).2
         (mkState m' (t_token s) (t_mu s) (Transport_RoundTrip (world s) m' r2).1
                  (trace s ++ [EvDispatch r2])).
Proof.
  intros Hmu Hv Hr Hh.
  destruct (check_valid s T Hmu Hv) as (q & h & HT & HE & Hq).
  exists h. unfold RoundTrip.
  rewrite (bind_Ok _ _ _ _ _ HT), (bind_Ok _ _ _ _ _ HE).
  unfold bind at 1. unfold ret at 1.
  erewrite (send_eval _ r v q T).
  - destruct s as [[] ? ? ? ?]. reflexivity.
  - by destruct s as [[] ? ? ? ?].
  - by destruct s as [[] ? ? ? ?].
  - by destruct s as [[] ? ? ? ?].
Qed.

(** Whenever the rest of [RoundTrip] returns, it has sent a clone that
    carries the header, in a store that extends the one it started in. *)
Lemma send_inv s r (token : ptr) res s' :
  request_ok (mem s) r ->
  (forall q, token = Some q -> is_Some (tokens (mem s) !! q)) ->
  (req2 <- cloneRequest (Some r) ;;
   tk <- load tokens token ;;
   let typ := if decide (oauth2.TokenType tk = "") then defaultTokenType
              else oauth2.TokenType tk in
   r2 <- load requests req2 ;;
   Header_Set (http.Header r2) "Authorization" (typ +:+ " " +:+ oauth2.AccessToken tk) ;;
   call_DefaultTransport (R:=R) req2) s = Ok res s' ->
  exists v value,
    requests (mem s) !! r = Some v /\
    mem s' = authorized (mem s) v value /\
    trace s' = trace s ++ [EvDispatch (fresh (dom (requests (mem s))))].
Proof.
  intros Hok Htk H.
  destruct (request_ok_lookup _ _ Hok) as (v & Hr & Hh).
  destruct token as [q|].
  - destruct (Htk q eq_refl) as [T HT].
    rewrite (send_eval s r v q T Hr Hh HT) in H. simpl in H.
    injection H as _ <-. by exists v, (authorization_of T).
  - by rewrite (send_nil s r v Hr Hh) in H.
Qed.

(** Whenever [RoundTrip] returns, every request, header map and array of
    the initial store is unchanged; and if the last outgoing call is a
    dispatch, the request sent is a new object that carries the header. *)
Lemma RoundTrip_inv s r res s' :
  request_ok (mem s) r ->
  RoundTrip (R:=R) (Some r) s = Ok res s' ->
  store_extends (mem s) (mem s') /\
  forall r2, last (trace s') = Some (EvDispatch r2) ->
             requests (mem s) !! r2 = None /\
             exists value, request_header (mem s') r2 "Authorization" = Some [value].
Proof.
  intros Hok H. unfold RoundTrip in H.
  apply bind_inv in H as (tk & s1 & HT & H).
  apply Token_inv in HT as (h1 & -> & _ & Htk).
  apply bind_inv in H as (b & s1' & HE & H).
  apply nil_or_Expired_state in HE as ->.
  apply bind_inv in H as (refreshed & s2 & HRf & H).
  assert (Hsend : forall sa (token : ptr),
    (exists h, mem sa = set_tokens h (mem s)) ->
    (forall q, token = Some q -> is_Some (tokens (mem sa) !! q)) ->
    (req2 <- cloneRequest (Some r) ;;
     tk <- load tokens token ;;
     let typ := if decide (oauth2.TokenType tk = "") then defaultTokenType
                else oauth2.TokenType tk in
     r2 <- load requests req2 ;;
     Header_Set (http.Header r2) "Authorization" (typ +:+ " " +:+ oauth2.AccessToken tk) ;;
     call_DefaultTransport (R:=R) req2) sa = Ok res s' ->
    store_extends (mem s) (mem s') /\
    forall r2, last (trace s') = Some (EvDispatch r2) ->
               requests (mem s) !! r2 = None /\
               exists value, request_header (mem s') r2 "Authorization" = Some [value]).
  { intros sa token [h Hm] Hq Hs.
    assert (Hoka : request_ok (mem sa) r).
    { rewrite Hm. by apply request_ok_set_tokens. }
    destruct (send_inv sa r token res s' Hoka Hq Hs) as (v & value & Hv & Hm' & Htr).
    destruct (request_ok_lookup _ _ Hoka) as (v' & Hv' & Hh).
    assert (v' = v) as -> by congruence.
    split.
    - rewrite Hm'. eapply store_extends_trans;
        [apply (store_extends_set_tokens _ h)|].
      rewrite <- Hm. by apply store_extends_authorized.
    - intros r2. rewrite Htr, last_snoc. intros [= <-].
      assert (Hreq : requests (mem sa) = requests (mem s)).
      { rewrite Hm. by destruct (mem s). }
      split; [rewrite <- Hreq; apply fresh_dom_None|].
      exists value. rewrite Hm'. apply authorized_header. }
  destruct b.
  - apply bind_inv in HRf as (err & s2' & HR & HRf).
    apply RefreshToken_inv in HR as (h2 & Hm2 & Htr2).
    destruct err as [e|].
    + injection HRf as <- <-. injection H as _ <-.
      split.
      * rewrite Hm2. destruct s as [[] ? ? ? ?]. by repeat split.
      * intros r2. rewrite Htr2, last_snoc. discriminate.
    + apply bind_inv in HRf as (tk' & s3 & HT' & HRf).
      injection HRf as <- <-.
      apply Token_inv in HT' as (h3 & -> & _ & Htk').
      refine (Hsend _ tk' _ _ H).
      * exists h3. simpl. rewrite Hm2. by destruct s as [[] ? ? ? ?].
      * intros q ->. destruct Htk' as (p & T & _ & _ & Hq). simpl. eauto.
  - injection HRf as <- <-.
    refine (Hsend _ tk _ _ H).
    + exists h1. by destruct s as [[] ? ? ? ?].
    + intros q ->. destruct Htk as (p & T & _ & _ & Hq). simpl.
      destruct s as [[] ? ? ? ?]. simpl in *. eauto.
Qed.

(** ** The properties of the specification *)

(** C4.  For a non-nil token [T]: [Expired] is true whenever the access
    token is empty, whatever the expiry; with a non-empty access token it is
    false when no expiry is set (the zero time); and with an expiry set it is
    true when the expiry lies before the current time and false otherwise,
    in particular when it lies in the future. *)
Theorem Expired_spec s p T :
  tokens (mem s) !! p = Some T ->
  (oauth2.AccessToken T = "" -> Expired (Some p) s = Ok true s) /\
  (oauth2.AccessToken T <> "" -> oauth2.Expiry T = 0%Z -> Expired (Some p) s = Ok false s) /\
  (oauth2.AccessToken T <> "" -> oauth2.Expiry T <> 0%Z ->
   ((oauth2.Expiry T < time_Now (world s))%Z -> Expired (Some p) s = Ok true s) /\
   ((time_Now (world s) <= oauth2.Expiry T)%Z -> Expired (Some p) s = Ok false s)).
Proof.
  intros HT. unfold Expired, bind, load. rewrite HT.
  split; [|split].
  - intros ->. reflexivity.
  - intros Hne Hz. rewrite decide_False by done.
    unfold time.IsZero. by rewrite Hz.
  - intros Hne Hz. rewrite decide_False by done.
    unfold time.IsZero. rewrite (proj2 (Z.eqb_neq _ _) Hz).
    unfold now, ret, time.Before. split; intros Hlt.
    + by rewrite (proj2 (Z.ltb_lt _ _) Hlt).
    + by rewrite (proj2 (Z.ltb_ge _ _) Hlt).
Qed.

(** C2, as amended.  [Expired] dereferences its argument at once, so on a
    nil token it panics; [RoundTrip] tests [token == nil] first, and that
    test alone makes the condition true, without calling [Expired]. *)
Theorem Expired_nil_panics s :
  Expired None s = Fault NilDeref /\ nil_or_Expired None s = Ok true s.
Proof. split; reflexivity. Qed.

(** C9.  [Token] returns nil when no token is stored.  Otherwise it returns
    a new object [q], distinct from the stored one, whose fields equal the
    stored token's; whatever the caller then writes into [q], the stored
    token is as before and the next [Token] call again yields a copy of it. *)
Theorem Token_returns_copy s :
  writer (t_mu s) = false ->
  (forall p, t_token s = Some p -> is_Some (tokens (mem s) !! p)) ->
  match t_token s with
  | None => Token s = Ok None s
  | Some p =>
      exists T q s1,
        tokens (mem s) !! p = Some T /\
        Token s = Ok (Some q) s1 /\
        q <> p /\ tokens (mem s1) !! q = Some T /\
        t_token s1 = Some p /\ tokens (mem s1) !! p = Some T /\
        forall T', exists s2 q' s3,
          store_token (Some q) T' s1 = Ok tt s2 /\
          tokens (mem s2) !! q = Some T' /\
          tokens (mem s2) !! p = Some T /\
          Token s2 = Ok (Some q') s3 /\
          tokens (mem s3) !! q' = Some T
  end.
Proof.
  intros Hmu Hok. destruct (t_token s) as [p|] eqn:Hp; [|by apply Token_nil].
  destruct (Hok p eq_refl) as [T HT].
  set (q := fresh (dom (tokens (mem s)))).
  assert (Hne : q <> p).
  { intros Heq. subst q. rewrite <- Heq in HT. by rewrite fresh_dom_None in HT. }
  exists T, q, (set_mem (set_tokens (<[q := T]> (tokens (mem s))) (mem s)) s).
  split; [done|]. split; [by apply (Token_some s p T)|]. split; [done|].
  simpl. split; [apply lookup_insert_eq|]. split; [by destruct s|].
  split; [by rewrite lookup_insert_ne|].
  intros T'. unfold store_token. simpl. rewrite lookup_insert_eq.
  eexists _, _, _. split; [reflexivity|]. simpl.
  split; [apply lookup_insert_eq|].
  assert (HT2 : <[q:=T']> (<[q:=T]> (tokens (mem s))) !! p = Some T).
  { by rewrite !lookup_insert_ne. }
  split; [done|].
  split.
  - apply (Token_some _ p T); [by destruct s|done|by destruct s].
  - simpl. apply lookup_insert_eq.
Qed.

(** C6.  With a stored token [T] that is not expired (so non-nil, with a
    non-empty access token), a round trip returns what the underlying
    transport returns, makes no call to the fetcher (the only outgoing call
    it adds is the dispatch), and the request it dispatches carries
    [Authorization: <Type> <AccessToken>], with [Bearer] for an empty type. *)
Theorem RoundTrip_valid_token s r T :
  writer (t_mu s) = false -> holds_valid s T -> request_ok (mem s) r ->
  exists r2 s',
    RoundTrip (R:=R) (Some r) s
      = Ok (Transport_RoundTrip (world s) (mem s') r2).2 s' /\
    trace s' = trace s ++ [EvDispatch r2] /\
    world s' = (Transport_RoundTrip (world s) (mem s') r2).1 /\
    t_token s' = t_token s /\
    request_header (mem s') r2 "Authorization"
      = Some [(if decide (oauth2.TokenType T = "") then "Bearer" else oauth2.TokenType T)
              +:+ " " +:+ oauth2.AccessToken T].
Proof.
  intros Hmu Hv Hok.
  destruct (request_ok_lookup _ _ Hok) as (v & Hr & Hh).
  destruct (RoundTrip_valid_sent s r v T Hmu Hv Hr Hh) as (h & ->).
  cbv zeta.
  match goal with
  | |- context [Ok _ ?st] => exists (fresh (dom (requests (mem s)))), st
  end.
  split; [reflexivity|]. simpl.
  split; [done|]. split; [done|]. split; [done|].
  replace (requests (mem s)) with (requests (set_tokens h (mem s)))
    by (by destruct (mem s)).
  apply authorized_header.
Qed.

(** C7.  With no stored token, or an expired one, and a fetcher that
    returns token [T2] at [p2] without error: the round trip calls the
    fetcher once, with the stored token as hint, makes [p2] the stored
    token, and dispatches the request authorized with [T2].  Nothing is
    assumed of [T2]: it is used as it is, expired or not. *)
Theorem RoundTrip_refresh_on_demand s r w' h' p2 T2 :
  t_mu s = unlocked -> stale s -> request_ok (mem s) r ->
  fetcher_answer s = (w', h', (Some p2, None)) -> h' !! p2 = Some T2 ->
  exists r2 s',
    RoundTrip (R:=R) (Some r) s = Ok (Transport_RoundTrip w' (mem s') r2).2 s' /\
    trace s' = trace s ++ [EvFetch (t_token s); EvDispatch r2] /\
    t_token s' = Some p2 /\ tokens (mem s') !! p2 = Some T2 /\
    request_header (mem s') r2 "Authorization"
      = Some [(if decide (oauth2.TokenType T2 = "") then "Bearer" else oauth2.TokenType T2)
              +:+ " " +:+ oauth2.AccessToken T2].
Proof.
  intros Hmu Hst Hok HF HT2.
  destruct (request_ok_lookup _ _ Hok) as (v & Hr & Hh).
  rewrite (RoundTrip_refresh_sent s r v w' h' p2 T2) by done.
  cbv zeta.
  match goal with
  | |- context [Ok _ ?st] => exists (fresh (dom (requests (mem s)))), st
  end.
  split; [reflexivity|]. simpl.
  split; [by rewrite <- app_assoc|]. split; [done|].
  split.
  - rewrite lookup_insert_ne; [done|].
    intros Heq. rewrite <- Heq in HT2. by rewrite fresh_dom_None in HT2.
  - replace (requests (mem s))
      with (requests (set_tokens (<[fresh (dom h') := T2]> h') (mem s)))
      by (by destruct (mem s)).
    apply authorized_header.
Qed.

(** C5.  With no stored token, or an expired one, and a fetcher that
    returns error [e]: the round trip returns [e] and no response, whatever
    the request; the only outgoing call is the fetch, so nothing is
    dispatched; the [token] field is the same pointer as before, the token
    objects are as the fetcher left them (so the stored token is unchanged
    unless the fetcher itself wrote to it), and requests, header maps and
    arrays are those of the initial store. *)
Theorem RoundTrip_refresh_failure s (req : ptr) w' h' tk e :
  t_mu s = unlocked -> stale s ->
  fetcher_answer s = (w', h', (tk, Some e)) ->
  exists s',
    RoundTrip (R:=R) req s = Ok (None, Some e) s' /\
    trace s' = trace s ++ [EvFetch (t_token s)] /\
    t_token s' = t_token s /\
    tokens (mem s') = h' /\
    (forall p, t_token s = Some p -> h' !! p = tokens (mem s) !! p ->
               tokens (mem s') !! p = tokens (mem s) !! p) /\
    requests (mem s') = requests (mem s) /\
    headers (mem s') = headers (mem s) /\
    arrays (mem s') = arrays (mem s) /\
    t_mu s' = unlocked.
Proof.
  intros Hmu Hst HF.
  rewrite (RoundTrip_refresh_failed s req w' h' tk e) by done.
  eexists. split; [reflexivity|]. simpl.
  destruct (mem s); simpl. by repeat split.
Qed.

(** C10.  After a successful refresh the token read back is dereferenced
    without a nil check.  If the fetcher returned a nil token with a nil
    error, the round trip panics with a nil dereference; if it returned a
    pointer to a token, the round trip returns. *)
Theorem RoundTrip_refresh_nil_token s r w' h' (tk : ptr) :
  t_mu s = unlocked -> stale s -> request_ok (mem s) r ->
  fetcher_answer s = (w', h', (tk, None)) ->
  (tk = None -> RoundTrip (R:=R) (Some r) s = Fault NilDeref) /\
  (forall p2, tk = Some p2 -> is_Some (h' !! p2) ->
              exists res s', RoundTrip (R:=R) (Some r) s = Ok res s').
Proof.
  intros Hmu Hst Hok HF.
  destruct (request_ok_lookup _ _ Hok) as (v & Hr & Hh).
  split.
  - intros ->. by apply (RoundTrip_refresh_nil s r v w' h').
  - intros p2 -> [T2 HT2].
    rewrite (RoundTrip_refresh_sent s r v w' h' p2 T2) by done.
    simpl. eauto.
Qed.

(** C8.  For a request [r] whose pointers are sound: when the round trip
    returns, [r] reads as before, its fields and the values of every header,
    [Authorization] among them, present or absent; every request, header map
    and array of the initial store is unchanged; and the request that was
    dispatched, if any, is an object that did not exist before the call and
    carries the header. *)
Theorem RoundTrip_request_unchanged s r res s' :
  request_ok (mem s) r ->
  RoundTrip (R:=R) (Some r) s = Ok res s' ->
  requests (mem s') !! r = requests (mem s) !! r /\
  (forall k, request_header (mem s') r k = request_header (mem s) r k) /\
  store_extends (mem s) (mem s') /\
  (forall r2, last (trace s') = Some (EvDispatch r2) ->
              r2 <> r /\ requests (mem s) !! r2 = None /\
              exists value,
                request_header (mem s') r2 "Authorization" = Some [value]).
Proof.
  intros Hok H.
  destruct (RoundTrip_inv s r res s' Hok H) as (Hext & Hdisp).
  destruct (store_extends_untouched _ _ r Hok Hext) as (Hreq & Hhdr).
  split; [done|]. split; [done|]. split; [done|].
  intros r2 Hl. destruct (Hdisp r2 Hl) as (Hnew & Hset).
  split; [|done].
  intros ->. destruct Hok as (v & Hv & _). congruence.
Qed.

(** What [cloneRequest] computes.  The clone is a new request with the
    fields of [r], except that its header collection is a new map; that map
    has the keys of the header map of [r], and the loop binds each key to
    the slice header it has in [r], allocating no array.  The comment at
    the loop announces a deep copy, which this is not. *)
Theorem cloneRequest_shallow s r :
  request_ok (mem s) r ->
  exists v r2 h2 s',
    requests (mem s) !! r = Some v /\
    cloneRequest (Some r) s = Ok (Some r2) s' /\
    r2 <> r /\ requests (mem s) !! r2 = None /\
    requests (mem s') !! r2
      = Some (http.mkRequest (http.Method v) (http.URL v) (http.Body v) (Some h2)) /\
    requests (mem s') !! r = Some v /\
    http.Header v <> Some h2 /\ headers (mem s) !! h2 = None /\
    headers (mem s') !! h2 = Some (header_map (mem s) v) /\
    (forall k sl, header_map (mem s) v !! k = Some sl ->
                  exists hm2, headers (mem s') !! h2 = Some hm2 /\
                              hm2 !! k = Some sl) /\
    arrays (mem s') = arrays (mem s) /\
    tokens (mem s') = tokens (mem s) /\
    store_extends (mem s) (mem s').
Proof.
  intros Hok. destruct (request_ok_lookup _ _ Hok) as (v & Hr & Hh).
  exists v. eexists _, _, _. split; [done|].
  split; [by apply cloneRequest_eval|]. simpl.
  assert (Hne : fresh (dom (requests (mem s))) <> r).
  { intros Heq. rewrite <- Heq in Hr. by rewrite fresh_dom_None in Hr. }
  split; [done|]. split; [apply fresh_dom_None|].
  split; [apply lookup_insert_eq|].
  split; [by rewrite lookup_insert_ne|].
  split.
  { intros HH. destruct (Hh _ HH) as [hm Hhm].
    by rewrite fresh_dom_None in Hhm. }
  split; [apply fresh_dom_None|].
  split; [apply lookup_insert_eq|].
  split.
  { intros k sl Hk. eexists. split; [apply lookup_insert_eq|done]. }
  split; [done|]. split; [done|].
  repeat split; try apply insert_fresh_subseteq; done.
Qed.

End Facts.

(** ** The statements on the concrete transport *)

Lemma demo_request_ok :
  request_ok demo_mem 1%positive.
Proof.
  exists demo_request. split; [reflexivity|].
  intros h [= <-]. eexists. split; [reflexivity|].
  intros k sl a Hk Ha.
  apply lookup_insert_Some in Hk as [[_ <-]|[_ Hk]]; [|by rewrite lookup_empty in Hk].
  injection Ha as <-. by eexists.
Qed.

Lemma demo_expired_stale : stale (Clock0 := demo_clock) demo_expired.
Proof.
  right. exists 2%positive, demo_old_token.
  split; [reflexivity|]. split; [reflexivity|].
  right. split; [discriminate|reflexivity].
Qed.

Lemma demo_valid_holds : holds_valid (Clock0 := demo_clock) demo_valid demo_token.
Proof.
  exists 1%positive. split; [reflexivity|]. split; [reflexivity|].
  intros [H|[H _]]; [discriminate H|by apply H].
Qed.

Lemma Expired_spec_witness :
  tokens (mem demo_expired) !! 2%positive = Some demo_old_token /\
  Expired (Clock0 := demo_clock) (Some 2%positive) demo_expired = Ok true demo_expired.
Proof.
  split; [reflexivity|].
  apply (Expired_spec (Clock0 := demo_clock) demo_expired 2%positive demo_old_token);
    [reflexivity|discriminate|discriminate|reflexivity].
Defined.

(** C2, as stated, fails: on a nil token [Expired] does not return true. *)
Lemma Expired_nil_not_true :
  Expired (Clock0 := demo_clock) None demo_empty <> Ok true demo_empty.
Proof. discriminate. Qed.

Lemma Token_returns_copy_witness :
  writer (t_mu demo_valid) = false /\
  exists q s1,
    Token demo_valid = Ok (Some q) s1 /\ q <> 1%positive /\
    tokens (mem s1) !! q = Some demo_token /\
    forall T', exists s2 q' s3,
      store_token (Some q) T' s1 = Ok tt s2 /\
      Token s2 = Ok (Some q') s3 /\
      tokens (mem s3) !! q' = Some demo_token.
Proof.
  split; [reflexivity|].
  assert (Hok : forall p, t_token demo_valid = Some p ->
                          is_Some (tokens (mem demo_valid) !! p)).
  { intros p [= <-]. by eexists. }
  destruct (Token_returns_copy demo_valid eq_refl Hok)
    as (T & q & s1 & HT & Hcall & Hne & Hq & _ & _ & Hmut).
  injection HT as <-.
  exists q, s1. split; [done|]. split; [done|]. split; [done|].
  intros T'. destruct (Hmut T') as (s2 & q' & s3 & Hst & _ & _ & Hcall' & Hq').
  by exists s2, q', s3.
Defined.

Lemma RoundTrip_valid_token_witness :
  exists r2 s',
    RoundTrip (TokenFetcher0 := demo_fetcher) (RoundTripper0 := demo_transport)
              (Clock0 := demo_clock) (Some 1%positive) demo_valid
      = Ok (Some "200 OK", None) s' /\
    trace s' = [EvDispatch r2] /\
    request_header (mem s') r2 "Authorization" = Some ["Bearer abc"].
Proof.
  destruct (RoundTrip_valid_token (TokenFetcher0 := demo_fetcher)
              (RoundTripper0 := demo_transport) (Clock0 := demo_clock)
              demo_valid 1%positive demo_token eq_refl
              demo_valid_holds demo_request_ok)
    as (r2 & s' & Hcall & Htr & _ & _ & Hhdr).
  exists r2, s'. split; [exact Hcall|]. split; [exact Htr|exact Hhdr].
Defined.

Lemma RoundTrip_refresh_on_demand_witness :
  exists r2 s' p2,
    RoundTrip (TokenFetcher0 := demo_fetcher) (RoundTripper0 := demo_transport)
              (Clock0 := demo_clock) (Some 1%positive) demo_expired
      = Ok (Some "200 OK", None) s' /\
    trace s' = [EvFetch (Some 2%positive); EvDispatch r2] /\
    t_token s' = Some p2 /\
    tokens (mem s') !! p2 = Some (oauth2.mkToken "fresh" "" "rt" 0%Z) /\
    request_header (mem s') r2 "Authorization" = Some ["Bearer fresh"].
Proof.
  destruct (RoundTrip_refresh_on_demand (TokenFetcher0 := demo_fetcher)
              (RoundTripper0 := demo_transport) (Clock0 := demo_clock)
              demo_expired 1%positive
              (fetcher_answer (TokenFetcher0 := demo_fetcher) demo_expired).1.1
              (fetcher_answer (TokenFetcher0 := demo_fetcher) demo_expired).1.2
              4%positive (oauth2.mkToken "fresh" "" "rt" 0%Z)
              eq_refl demo_expired_stale demo_request_ok)
    as (r2 & s' & Hcall & Htr & Htok & Hp2 & Hhdr);
    [vm_compute; reflexivity|vm_compute; reflexivity|].
  exists r2, s', 4%positive.
  split; [exact Hcall|]. split; [exact Htr|]. split; [exact Htok|].
  split; [exact Hp2|exact Hhdr].
Defined.

Lemma RoundTrip_refresh_failure_witness :
  exists s',
    RoundTrip (TokenFetcher0 := failing_fetcher) (RoundTripper0 := demo_transport)
              (Clock0 := demo_clock) (Some 1%positive) demo_expired
      = Ok (None, Some "invalid_grant") s' /\
    trace s' = [EvFetch (Some 2%positive)] /\
    t_token s' = Some 2%positive /\
    tokens (mem s') !! 2%positive = Some demo_old_token.
Proof.
  destruct (RoundTrip_refresh_failure (TokenFetcher0 := failing_fetcher)
              (RoundTripper0 := demo_transport) (Clock0 := demo_clock)
              demo_expired (Some 1%positive) 100%Z
              (fetcher_answer (TokenFetcher0 := failing_fetcher) demo_expired).1.2
              None "invalid_grant"
              eq_refl demo_expired_stale)
    as (s' & Hcall & Htr & Htok & _ & Hobj & _);
    [vm_compute; reflexivity|].
  exists s'. split; [exact Hcall|]. split; [exact Htr|]. split; [exact Htok|].
  transitivity (tokens (mem demo_expired) !! 2%positive);
    [|vm_compute; reflexivity].
  apply Hobj; [reflexivity|vm_compute; reflexivity].
Defined.

Lemma RoundTrip_refresh_nil_token_witness :
  RoundTrip (TokenFetcher0 := nil_fetcher) (RoundTripper0 := demo_transport)
            (Clock0 := demo_clock) (Some 1%positive) demo_expired
    = Fault NilDeref /\
  exists res s',
    RoundTrip (TokenFetcher0 := demo_fetcher) (RoundTripper0 := demo_transport)
              (Clock0 := demo_clock) (Some 1%positive) demo_expired
      = Ok res s'.
Proof.
  split.
  - apply (RoundTrip_refresh_nil_token (TokenFetcher0 := nil_fetcher)
             (RoundTripper0 := demo_transport) (Clock0 := demo_clock)
             demo_expired 1%positive 100%Z
             (fetcher_answer (TokenFetcher0 := nil_fetcher) demo_expired).1.2
             None eq_refl demo_expired_stale demo_request_ok);
      [vm_compute; reflexivity|reflexivity].
  - apply (RoundTrip_refresh_nil_token (TokenFetcher0 := demo_fetcher)
             (RoundTripper0 := demo_transport) (Clock0 := demo_clock)
             demo_expired 1%positive 100%Z
             (fetcher_answer (TokenFetcher0 := demo_fetcher) demo_expired).1.2
             (Some 4%positive) eq_refl demo_expired_stale demo_request_ok
             ltac:(vm_compute; reflexivity)) with (p2 := 4%positive);
      [reflexivity|vm_compute; eexists; reflexivity].
Defined.

Lemma RoundTrip_request_unchanged_witness :
  exists res s',
    RoundTrip (TokenFetcher0 := demo_fetcher) (RoundTripper0 := demo_transport)
              (Clock0 := demo_clock) (Some 1%positive) demo_expired
      = Ok res s' /\
    requests (mem s') !! 1%positive = Some demo_request /\
    request_header (mem s') 1%positive "Authorization" = None /\
    request_header (mem s') 1%positive "Accept" = Some ["text/html"].
Proof.
  destruct (RoundTrip (TokenFetcher0 := demo_fetcher)
              (RoundTripper0 := demo_transport) (Clock0 := demo_clock)
              (Some 1%positive) demo_expired) as [res s'|f] eqn:Hcall;
    [|vm_compute in Hcall; discriminate Hcall].
  destruct (RoundTrip_request_unchanged (TokenFetcher0 := demo_fetcher)
              (RoundTripper0 := demo_transport) (Clock0 := demo_clock)
              demo_expired 1%positive res s' demo_request_ok Hcall)
    as (Hreq & Hhdr & _).
  exists res, s'. split; [reflexivity|].
  split; [etrans; [exact Hreq|vm_compute; reflexivity]|].
  split; (etrans; [apply Hhdr|vm_compute; reflexivity]).
Defined.

Lemma cloneRequest_shallow_witness :
  exists r2 h2 s',
    cloneRequest (Some 1%positive) demo_valid = Ok (Some r2) s' /\
    r2 <> 1%positive /\
    requests (mem s') !! r2 = Some (http.mkRequest "GET" "/" None (Some h2)) /\
    headers (mem s') !! h2 = Some (<["Accept" := demo_accept]> ∅) /\
    arrays (mem s') = arrays demo_mem.
Proof.
  destruct (cloneRequest_shallow demo_valid 1%positive demo_request_ok)
    as (v & r2 & h2 & s' & Hv & Hcall & Hne & _ & Hr2 & _ & _ & _ & Hh2 & _ & Har & _).
  vm_compute in Hv. injection Hv as <-.
  exists r2, h2, s'. split; [exact Hcall|]. split; [exact Hne|].
  split; [exact Hr2|]. split; [|exact Har].
  etrans; [exact Hh2|vm_compute; reflexivity].
Defined.

(** C1.  The code does not do what the claim, and the comment at the loop
    of [cloneRequest] (deep copy of the Header), say.  On request 1 of
    [demo_valid], whose only header is [Accept: text/html], the call returns
    the new request 2 and the value lists are not duplicated: the [Accept]
    list of the clone is the slice of the original, over the same array
    cell. *)
Lemma cloneRequest_shares_value_lists :
  exists s' v2,
    cloneRequest (Some 1%positive) demo_valid = Ok (Some 2%positive) s' /\
    requests (mem s') !! 2%positive = Some v2 /\
    ~ value_lists_duplicated (mem demo_valid) (mem s') demo_request v2.
Proof.
  eexists _, _. split; [vm_compute; reflexivity|].
  split; [vm_compute; reflexivity|].
  intros Hdup.
  apply (Hdup "Accept" demo_accept demo_accept eq_refl eq_refl
              (1%positive, 0)); apply list_elem_of_here.
Qed.

(** What the defect means to a caller: a write through the clone's
    [Accept] slice shows in the original request. *)
Lemma cloneRequest_alias_observable :
  exists s1 s2,
    cloneRequest (Some 1%positive) demo_valid = Ok (Some 2%positive) s1 /\
    request_header (mem s1) 1%positive "Accept" = Some ["text/html"] /\
    request_header (mem s1) 2%positive "Accept" = Some ["text/html"] /\
    slice_assign demo_accept 0 "text/plain" s1 = Ok tt s2 /\
    request_header (mem s2) 1%positive "Accept" = Some ["text/plain"].
Proof.
  eexists _, _. split; [vm_compute; reflexivity|].
  split; [vm_compute; reflexivity|]. split; [vm_compute; reflexivity|].
  split; vm_compute; reflexivity.
Qed.

(** ** Concurrent round trips: facts *)

Lemma sum_list_with_insert {A} (f : A -> nat) (l : list A) i x y :
  l !! i = Some x ->
  sum_list_with f (<[i := y]> l) + f x = sum_list_with f l + f y.
Proof.
  revert i. induction l as [|a l IH]; intros [|i] H; simplify_eq/=.
  - lia.
  - specialize (IH i H). lia.
Qed.

Lemma sum_list_with_lookup {A} (f : A -> nat) (l : list A) i x :
  l !! i = Some x -> f x <= sum_list_with f l.
Proof.
  revert i. induction l as [|a l IH]; intros [|i] H; simplify_eq/=.
  - lia.
  - specialize (IH i H). lia.
Qed.

Lemma sum_list_with_pos {A} (f : A -> nat) (l : list A) :
  0 < sum_list_with f l -> exists i x, l !! i = Some x /\ 0 < f x.
Proof.
  induction l as [|a l IH]; simpl; [lia|].
  intros H. destruct (f a) as [|n] eqn:Hfa.
  - destruct (IH H) as (i & x & Hi & Hx). by exists (S i), x.
  - exists 0, a. split; [done|lia].
Qed.

(** Two positions of weight one in a list of total weight at most one
    are the same position. *)
Lemma sum_list_with_le_1 {A} (f : A -> nat) (l : list A) i j x y :
  sum_list_with f l <= 1 ->
  l !! i = Some x -> l !! j = Some y -> f x = 1 -> f y = 1 -> i = j.
Proof.
  revert i j. induction l as [|a l IH]; intros [|i] [|j] Hs Hi Hj Hx Hy;
    simplify_eq/=; try done.
  - pose proof (sum_list_with_lookup f l j y Hj). lia.
  - pose proof (sum_list_with_lookup f l i x Hi). lia.
  - f_equal. apply IH; [lia|done..].
Qed.

Lemma sum_list_with_fmap_const {A B} (f : B -> nat) (h : A -> B) (l : list A) k :
  (forall a, f (h a) = k) -> sum_list_with f (h <$> l) = k * length l.
Proof.
  intros Hk. induction l as [|a l IH]; [simpl; lia|].
  rewrite fmap_cons. cbn [sum_list_with length]. rewrite IH, Hk. lia.
Qed.

Lemma fetch_count_app tr tr' :
  fetch_count (tr ++ tr') = fetch_count tr + fetch_count tr'.
Proof. apply sum_list_with_app. Qed.

Section ConcFacts.
Context {W R : Type} `{!TokenFetcher W} `{!RoundTripper W R} `{!Clock W}.
Implicit Types (s : State W) (g : goroutine R) (c : config W R).

(** *** Computations that stay in the store *)

Lemma local_ret {A} (a : A) : local (W:=W) (ret a).
Proof. intros s. exists (mem s). by rewrite set_mem_id. Qed.

Lemma local_bind {A B} (c : M W A) (k : A -> M W B) :
  local c -> (forall a, local (k a)) -> local (bind c k).
Proof.
  intros Hc Hk s. unfold bind. specialize (Hc s).
  destruct (c s) as [a s1|f]; [|done].
  destruct Hc as [m1 ->]. specialize (Hk a (set_mem m1 s)).
  destruct (k a (set_mem m1 s)) as [b s2|f]; [|done].
  destruct Hk as [m2 ->]. by exists m2.
Qed.

Lemma local_load {A} (sel : Mem -> gmap loc A) (p : ptr) : local (W:=W) (load sel p).
Proof.
  intros s. unfold load. destruct p as [l|]; [|done].
  destruct (sel (mem s) !! l); [|done].
  exists (mem s). by rewrite set_mem_id.
Qed.

Lemma local_get {A} (k : State W -> M W A) :
  (forall s, local (k s)) -> local (bind get k).
Proof. intros Hk s. unfold bind, get. apply Hk. Qed.

Lemma local_new_token (v : oauth2.Token) : local (W:=W) (new_token v).
Proof. intros s. by eexists. Qed.

Lemma local_new_request : local (W:=W) new_request.
Proof. intros s. by eexists. Qed.

Lemma local_store_request l v : local (W:=W) (store_request l v).
Proof. intros s. by eexists. Qed.

Lemma local_make_header : local (W:=W) make_header.
Proof. intros s. by eexists. Qed.

Lemma local_new_array v : local (W:=W) (new_array v).
Proof. intros s. by eexists. Qed.

Lemma local_map_assign (h : ptr) k v : local (W:=W) (map_assign h k v).
Proof.
  intros s. unfold map_assign. destruct h as [l|]; [|done].
  destruct (headers (mem s) !! l); [by eexists|done].
Qed.

Lemma local_range_map (h : ptr) : local (W:=W) (range_map h).
Proof.
  destruct h as [l|]; [|apply local_ret].
  apply local_bind; [apply local_load|]. intros hm. apply local_ret.
Qed.

Lemma local_for_each {A} (body : A -> M W unit) (l : list A) :
  (forall a, local (body a)) -> local (for_each body l).
Proof.
  intros Hb. induction l as [|a l IH]; simpl; [apply local_ret|].
  apply local_bind; [apply Hb|done].
Qed.

Lemma local_cloneRequest (r : ptr) : local (W:=W) (cloneRequest r).
Proof.
  unfold cloneRequest.
  apply local_bind; [apply local_new_request|]. intros r2.
  apply local_bind; [apply local_load|]. intros v.
  apply local_bind; [apply local_store_request|]. intros _.
  apply local_bind; [apply local_make_header|]. intros h.
  apply local_bind; [apply local_store_request|]. intros _.
  apply local_bind; [apply local_range_map|]. intros kvs.
  apply local_bind; [|intros _; apply local_ret].
  apply local_for_each. intros kv. apply local_map_assign.
Qed.

Lemma local_Header_Set (h : ptr) key value : local (W:=W) (Header_Set h key value).
Proof.
  unfold Header_Set.
  apply local_bind; [apply local_new_array|]. intros a. apply local_map_assign.
Qed.

Lemma local_authorize (req token : ptr) : local (W:=W) (authorize req token).
Proof.
  unfold authorize.
  apply local_bind; [apply local_cloneRequest|]. intros req2.
  apply local_bind; [apply local_load|]. intros tk.
  apply local_bind; [apply local_load|]. intros r2.
  apply local_bind; [apply local_Header_Set|]. intros _. apply local_ret.
Qed.

Lemma local_Expired (t : ptr) : local (Expired t).
Proof.
  unfold Expired.
  apply local_bind; [apply local_load|]. intros tk.
  destruct (decide _); [apply local_ret|].
  destruct (time.IsZero _); [apply local_ret|].
  apply local_bind; [|intros x; apply local_ret].
  intros s. exists (mem s). by rewrite set_mem_id.
Qed.

Lemma local_nil_or_Expired (t : ptr) : local (nil_or_Expired t).
Proof. destruct t; [apply local_Expired|apply local_ret]. Qed.

Lemma local_Token_locked : local (W:=W) Token_locked.
Proof.
  unfold Token_locked. apply local_get. intros s.
  destruct (t_token s) as [l|]; [|apply local_ret].
  apply local_bind; [apply local_load|]. intros tk.
  apply local_bind; [apply local_new_token|]. intros q. apply local_ret.
Qed.

(** What a step of a local computation can be. *)
Lemma advance_local {A} (c : M W A) (k : A -> goroutine R) on_panic s g' s' :
  local c ->
  advance c k on_panic s = Some (g', s') ->
  (exists a, c s = Ok a s' /\ g' = k a /\ exists m', s' = set_mem m' s) \/
  (exists f, c s = Fault f /\ g' = on_panic f /\ s' = s).
Proof.
  intros Hc. unfold advance. specialize (Hc s).
  destruct (c s) as [a s1|f].
  - intros [= <- <-]. left. eauto.
  - destruct f; try done; intros [= <- <-]; right; eauto.
Qed.

(** *** [step1] makes the transitions of [gstep] *)

Lemma step1_gstep g s g' s' : step1 g s = Some (g', s') -> gstep g s g' s'.
Proof.
  destruct g as [req p]. unfold step1. simpl.
  destruct p as [again|again|again r|f|token| | |hint|token err|err|token| |res|f];
    try discriminate.
  - unfold advance, RLock. destruct (writer (t_mu s)) eqn:Hw; [discriminate|].
    intros [= <- <-]. by constructor.
  - intros H. apply advance_local in H as [(a & Hc & -> & _)|(f & Hc & -> & ->)];
      [| |apply local_Token_locked].
    + by constructor.
    + by constructor.
  - unfold advance, RUnlock. destruct (readers (t_mu s)) as [|n] eqn:Hr.
    + intros [= <- <-]. by apply G_RUnlockMisuse.
    + intros [= <- <-]. by constructor.
  - unfold advance, RUnlock. destruct (readers (t_mu s)) as [|n] eqn:Hr.
    + intros [= <- <-]. by apply G_RUnlockMisuse.
    + intros [= <- <-]. by constructor.
  - intros H. apply advance_local in H as [(b & Hc & -> & _)|(f & Hc & -> & ->)];
      [| |apply local_nil_or_Expired].
    + pose proof (nil_or_Expired_state _ _ _ _ Hc) as ->. by constructor.
    + by constructor.
  - unfold advance, Lock. destruct (writer (t_mu s)) eqn:Hw; [discriminate|].
    destruct (readers (t_mu s)) eqn:Hr; [|discriminate].
    intros [= <- <-]. by constructor.
  - unfold advance, fetch_enter, modify. intros [= <- <-]. constructor.
  - unfold advance, fetch_leave.
    destruct (FetchToken (world s) (tokens (mem s)) hint) as [[w' h'] [tk err]] eqn:HF.
    intros [= <- <-]. by constructor.
  - destruct err as [e|].
    + intros [= <- <-]. constructor.
    + unfold advance, modify. intros [= <- <-]. constructor.
  - unfold advance, Unlock. destruct (writer (t_mu s)) eqn:Hw.
    + intros [= <- <-]. by constructor.
    + intros [= <- <-]. by constructor.
  - intros H. apply advance_local in H as [(b & Hc & -> & _)|(f & Hc & -> & ->)];
      [| |apply local_authorize].
    + by constructor.
    + by constructor.
  - unfold advance, call_DefaultTransport. destruct req as [l|].
    + destruct (Transport_RoundTrip (world s) (mem s) l) as [w' res] eqn:HT.
      intros [= <- <-]. by constructor.
    + intros [= <- <-]. constructor.
Qed.

Lemma local_Ok {A} (c : M W A) s a s' :
  local c -> c s = Ok a s' -> exists m', s' = set_mem m' s.
Proof. intros Hc H. specialize (Hc s). by rewrite H in Hc. Qed.

Lemma advance_local_Some {A} (c : M W A) (k : A -> goroutine R) on_panic s :
  local c -> is_Some (advance c k on_panic s).
Proof.
  intros Hc. unfold advance. specialize (Hc s).
  destruct (c s) as [a s'|f]; [by eexists|].
  destruct f; try done; by eexists.
Qed.

(** *** Every step uses up one of the steps a goroutine has left *)

Lemma gstep_steps_left g s g' s' :
  gstep g s g' s' -> steps_left (g_pc g') < steps_left (g_pc g).
Proof.
  destruct 1; simpl;
    repeat match goal with
           | b : bool |- _ => destruct b
           | e : error |- _ => destruct e
           end; simpl; try lia.
  destruct p; simpl in *; try lia; try discriminate.
  all: repeat match goal with b : bool |- _ => destruct b end; lia.
Qed.

Lemma cstep_steps_left c c' :
  cstep c c' ->
  sum_list_with (fun g => steps_left (g_pc g)) (gs c')
  < sum_list_with (fun g => steps_left (g_pc g)) (gs c).
Proof.
  destruct 1 as [i g g' s s' gl Hi Hstep]. simpl.
  apply step1_gstep, gstep_steps_left in Hstep.
  pose proof (sum_list_with_insert (fun g => steps_left (g_pc g)) gl i g g' Hi).
  simpl in *. lia.
Qed.

(** An execution from [c] has at most as many steps as the goroutines of
    [c] have left. *)
Lemma nsteps_bound n c c' :
  nsteps cstep n c c' ->
  n + sum_list_with (fun g => steps_left (g_pc g)) (gs c')
  <= sum_list_with (fun g => steps_left (g_pc g)) (gs c).
Proof.
  induction 1 as [|n c1 c2 c3 Hstep _ IH]; [lia|].
  apply cstep_steps_left in Hstep. lia.
Qed.

Lemma steps_left_start s (reqs : list ptr) :
  sum_list_with (fun g => steps_left (g_pc g)) (gs (start (R:=R) s reqs))
  = 15 * length reqs.
Proof.
  unfold start. cbn [gs]. by apply sum_list_with_fmap_const.
Qed.

(** *** The mutex agrees with the goroutines *)

Lemma lock_inv_start s (reqs : list ptr) :
  t_mu s = unlocked -> lock_inv (start (R:=R) s reqs).
Proof.
  intros Hmu. unfold lock_inv, start. simpl. rewrite Hmu. simpl.
  split; [|split; [|done]].
  - by rewrite (sum_list_with_fmap_const _ _ _ 0).
  - by rewrite (sum_list_with_fmap_const _ _ _ 0).
Qed.

Lemma lock_inv_step c c' : lock_inv c -> cstep c c' -> lock_inv c'.
Proof.
  intros (Hw & Hr & Hwr) Hstep.
  destruct Hstep as [i g g' s s' gl Hi Hstep]. simpl in *.
  apply step1_gstep in Hstep.
  pose proof (sum_list_with_insert (fun g => holds_write (g_pc g)) gl i g g' Hi) as Hw'.
  pose proof (sum_list_with_insert (fun g => holds_read (g_pc g)) gl i g g' Hi) as Hr'.
  pose proof (sum_list_with_lookup (fun g => holds_write (g_pc g)) gl i g Hi) as Hwi.
  pose proof (sum_list_with_lookup (fun g => holds_read (g_pc g)) gl i g Hi) as Hri.
  unfold lock_inv. simpl.
  destruct Hstep; simpl in *;
    repeat match goal with
           | H : Token_locked _ = Ok _ _ |- _ =>
               apply (local_Ok _ _ _ _ local_Token_locked) in H as [? ->]
           | H : authorize _ _ _ = Ok _ _ |- _ =>
               apply (local_Ok _ _ _ _ (local_authorize _ _)) in H as [? ->]
           end; simpl in *;
    repeat match goal with
           | b : bool |- _ => destruct b
           | e : error |- _ => destruct e
           | H : writer _ = _ |- _ => rewrite H in *
           | H : readers _ = _ |- _ => rewrite H in *
           end; simpl in *;
    try (destruct (writer (t_mu s)) eqn:Hws; simpl in *);
    try (specialize (Hwr eq_refl));
    try (split; [lia|split; [lia|intros; lia || done]]);
    try lia.
Qed.

Lemma lock_inv_rtc c c' : lock_inv c -> rtc cstep c c' -> lock_inv c'.
Proof. intros Hc Hrtc. induction Hrtc; eauto using lock_inv_step. Qed.

(** *** Fetch calls *)

Lemma fetch_potential_step c c' :
  cstep c c' ->
  fetch_count (trace (shared c'))
    + sum_list_with (fun g => may_fetch (g_pc g)) (gs c')
  <= fetch_count (trace (shared c))
    + sum_list_with (fun g => may_fetch (g_pc g)) (gs c).
Proof.
  destruct 1 as [i g g' s s' gl Hi Hstep]. simpl.
  apply step1_gstep in Hstep.
  pose proof (sum_list_with_insert (fun g => may_fetch (g_pc g)) gl i g g' Hi) as Hm.
  pose proof (sum_list_with_lookup (fun g => may_fetch (g_pc g)) gl i g Hi) as Hmi.
  destruct Hstep; simpl in *;
    repeat match goal with
           | H : Token_locked _ = Ok _ _ |- _ =>
               apply (local_Ok _ _ _ _ local_Token_locked) in H as [? ->]
           | H : authorize _ _ _ = Ok _ _ |- _ =>
               apply (local_Ok _ _ _ _ (local_authorize _ _)) in H as [? ->]
           end; simpl in *;
    rewrite ?fetch_count_app; simpl;
    repeat match goal with
           | b : bool |- _ => destruct b
           | e : error |- _ => destruct e
           end; simpl in *; try lia.
Qed.

Lemma fetch_potential_rtc c c' :
  rtc cstep c c' ->
  fetch_count (trace (shared c'))
    + sum_list_with (fun g => may_fetch (g_pc g)) (gs c')
  <= fetch_count (trace (shared c))
    + sum_list_with (fun g => may_fetch (g_pc g)) (gs c).
Proof.
  induction 1 as [|c1 c2 c3 Hstep _ IH]; [lia|].
  apply fetch_potential_step in Hstep. lia.
Qed.

Lemma may_fetch_start s (reqs : list ptr) :
  sum_list_with (fun g => may_fetch (g_pc g)) (gs (start (R:=R) s reqs))
  = length reqs.
Proof.
  unfold start. cbn [gs]. rewrite (sum_list_with_fmap_const _ _ _ 1); [lia|done].
Qed.

(** *** Some goroutine can always step *)

Lemma step1_enabled g s :
  finished (g_pc g) = false ->
  (holds_write (g_pc g) = 1 -> writer (t_mu s) = true) ->
  (holds_read (g_pc g) = 1 -> 0 < readers (t_mu s)) ->
  (holds_write (g_pc g) = 0 -> holds_read (g_pc g) = 0 ->
   writer (t_mu s) = false /\ readers (t_mu s) = 0) ->
  is_Some (step1 g s).
Proof.
  destruct g as [req p]. unfold step1. simpl.
  destruct p as [again|again|again r|f|token| | |hint|token err|err|token| |res|f];
    simpl; intros Hfin Hw Hr Hfree; try discriminate.
  - destruct (Hfree eq_refl eq_refl) as [Hwf _].
    unfold advance, RLock. rewrite Hwf. by eexists.
  - apply advance_local_Some, local_Token_locked.
  - specialize (Hr eq_refl). unfold advance, RUnlock.
    destruct (readers (t_mu s)); [lia|by eexists].
  - specialize (Hr eq_refl). unfold advance, RUnlock.
    destruct (readers (t_mu s)); [lia|by eexists].
  - apply advance_local_Some, local_nil_or_Expired.
  - destruct (Hfree eq_refl eq_refl) as [Hwf Hrf].
    unfold advance, Lock. rewrite Hwf, Hrf. by eexists.
  - by eexists.
  - unfold advance, fetch_leave.
    destruct (FetchToken _ _ _) as [[w' h'] r]. by eexists.
  - destruct err; by eexists.
  - specialize (Hw eq_refl). unfold advance, Unlock. rewrite Hw. by eexists.
  - apply advance_local_Some, local_authorize.
  - unfold advance, call_DefaultTransport. destruct req as [l|]; [|by eexists].
    destruct (Transport_RoundTrip _ _ _). by eexists.
Qed.

Lemma holds_write_unfinished (p : pc R) : 0 < holds_write p -> finished p = false.
Proof. destruct p; simpl; (lia || done). Qed.

Lemma holds_read_unfinished (p : pc R) : 0 < holds_read p -> finished p = false.
Proof. destruct p; simpl; (lia || done). Qed.

Lemma holds_both (p : pc R) : holds_write p = 1 -> holds_read p = 1 -> False.
Proof. destruct p; simpl; lia. Qed.

Lemma holds_write_01 (p : pc R) : holds_write p = 0 \/ holds_write p = 1.
Proof. destruct p; simpl; lia. Qed.

Lemma holds_read_01 (p : pc R) : holds_read p = 0 \/ holds_read p = 1.
Proof. destruct p; simpl; lia. Qed.

(** As long as a goroutine has not finished, the configuration has a step:
    the goroutine that holds the write lock, else one that holds the read
    lock, else any unfinished one. *)
Lemma progress c g :
  lock_inv c -> g ∈ gs c -> finished (g_pc g) = false -> exists c', cstep c c'.
Proof.
  destruct c as [s gl]. intros (Hw & Hr & Hwr) Hin Hfin. simpl in *.
  assert (Hpick : exists i x, gl !! i = Some x /\ is_Some (step1 x s)).
  { destruct (writer (t_mu s)) eqn:Hws.
    - destruct (sum_list_with_pos (fun g => holds_write (g_pc g)) gl)
        as (i & x & Hi & Hx); [lia|].
      exists i, x. split; [done|].
      apply step1_enabled; [by apply holds_write_unfinished|done| |].
      + intros Hrx. destruct (holds_write_01 (g_pc x)); [lia|].
        by destruct (holds_both (g_pc x)).
      + lia.
    - destruct (readers (t_mu s)) as [|n] eqn:Hrs.
      + apply list_elem_of_lookup in Hin as [i Hi]. exists i, g.
        split; [done|].
        pose proof (sum_list_with_lookup (fun g => holds_write (g_pc g)) gl i g Hi).
        pose proof (sum_list_with_lookup (fun g => holds_read (g_pc g)) gl i g Hi).
        simpl in *.
        apply step1_enabled; [done|lia|lia|]. rewrite Hrs. done.
      + destruct (sum_list_with_pos (fun g => holds_read (g_pc g)) gl)
          as (i & x & Hi & Hx); [lia|].
        exists i, x. split; [done|].
        apply step1_enabled; [by apply holds_read_unfinished| |lia|lia].
        intros Hwx. destruct (holds_read_01 (g_pc x)); [lia|].
        by destruct (holds_both (g_pc x)). }
  destruct Hpick as (i & x & Hi & [[g' s'] Hstep]).
  eexists. by eapply cstep_at.
Qed.

(** *** Tokens and requests in a growing store *)

Lemma token_expired_mono (n0 n : time.Time) T :
  (n0 <= n)%Z -> token_expired n0 T -> token_expired n T.
Proof. intros Hn [?|[? ?]]; [by left|right]. split; [done|lia]. Qed.

Lemma tok_old_mono n0 (m m' : Mem) (x : ptr) :
  tokens m ⊆ tokens m' -> tok_old n0 m x -> tok_old n0 m' x.
Proof.
  intros Hsub [->|(l & T & -> & HT & He)]; [by left|right].
  exists l, T. eauto using lookup_weaken.
Qed.

Lemma tok_new_mono P (m m' : Mem) (x : ptr) :
  tokens m ⊆ tokens m' -> tok_new P m x -> tok_new P m' x.
Proof.
  intros Hsub (l & T & -> & HT & HP).
  exists l, T. eauto using lookup_weaken.
Qed.

Lemma request_ok_mono (m m' : Mem) r :
  store_extends m m' -> request_ok m r -> request_ok m' r.
Proof.
  intros (Hrq & Hhd & Har) (v & Hv & Hh).
  exists v. split; [by eapply lookup_weaken|].
  intros h HH. destruct (Hh h HH) as (hm & Hhm & Hsl).
  exists hm. split; [by eapply lookup_weaken|].
  intros k sl a Hk Ha. destruct (Hsl k sl a Hk Ha) as [vs Hvs].
  exists vs. by eapply lookup_weaken.
Qed.

Lemma request_ok_authorized (m : Mem) r v value :
  requests m !! r = Some v -> request_ok m r ->
  request_ok (authorized m v value) (fresh (dom (requests m))).
Proof.
  intros Hv (v' & Hv' & Hh). assert (v' = v) as -> by congruence.
  unfold request_ok, authorized. simpl.
  eexists. split; [apply lookup_insert_eq|]. simpl.
  intros h [= <-]. eexists. split; [apply lookup_insert_eq|].
  intros k sl a Hk Ha.
  apply lookup_insert_Some in Hk as [[_ <-]|[_ Hk]].
  - simpl in Ha. injection Ha as <-. rewrite lookup_insert_eq. by eexists.
  - unfold header_map in Hk. destruct (http.Header v) as [h|] eqn:HH;
      [|by rewrite lookup_empty in Hk].
    destruct (Hh h eq_refl) as (hm & Hhm & Hsl). rewrite Hhm in Hk. simpl in Hk.
    destruct (Hsl k sl a Hk Ha) as [vs Hvs].
    exists vs. rewrite lookup_insert_ne; [done|].
    intros <-. by rewrite fresh_dom_None in Hvs.
Qed.

Lemma Token_locked_inv s a s' :
  Token_locked s = Ok a s' ->
  exists h, s' = set_mem (set_tokens h (mem s)) s /\ tokens (mem s) ⊆ h /\
            match a with
            | None => t_token s = None
            | Some q => exists p T, t_token s = Some p /\
                                    tokens (mem s) !! p = Some T /\
                                    h !! q = Some T
            end.
Proof.
  destruct s as [[tk rq hd ar] tt mu w tr].
  unfold Token_locked, bind, get, load, new_token, ret. simpl.
  destruct tt as [p|]; simpl.
  - destruct (tk !! p) as [T|] eqn:HT; simpl; [|discriminate].
    intros [= <- <-]. eexists. split; [reflexivity|].
    split; [apply insert_fresh_subseteq|].
    exists p, T. rewrite Token_eta. split; [done|]. split; [done|].
    apply lookup_insert_eq.
  - intros [= <- <-]. exists tk. done.
Qed.

Lemma Token_locked_fault s f :
  Token_locked s = Fault f ->
  exists l, t_token s = Some l /\ tokens (mem s) !! l = None.
Proof.
  destruct s as [[tk rq hd ar] tt mu w tr].
  unfold Token_locked, bind, get, load, new_token, ret. simpl.
  destruct tt as [p|]; simpl; [|discriminate].
  destruct (tk !! p) as [T|] eqn:HT; simpl; [discriminate|]. eauto.
Qed.

Lemma authorize_eval s r v q T :
  requests (mem s) !! r = Some v ->
  (forall h, http.Header v = Some h -> is_Some (headers (mem s) !! h)) ->
  tokens (mem s) !! q = Some T ->
  authorize (Some r) (Some q) s =
    Ok (Some (fresh (dom (requests (mem s)))))
       (set_mem (authorized (mem s) v (authorization_of T)) s).
Proof.
  intros Hr Hh HT. unfold authorize.
  rewrite (bind_Ok _ _ _ _ _ (cloneRequest_eval s r v Hr Hh)).
  destruct s as [[tk rq hd ar] tt mu w tr]. simpl in *.
  unfold bind at 1. unfold load at 1. simpl. rewrite HT.
  unfold bind at 1. unfold load at 1. simpl. rewrite lookup_insert_eq.
  cbn [http.Header].
  erewrite bind_Ok; last first.
  { apply Header_Set_eval. simpl. apply lookup_insert_eq. }
  unfold ret, authorized, authorization_of, defaultTokenType.
  simpl. by rewrite insert_insert_eq.
Qed.

(** A token pointer that is nil or expired for good makes the condition of
    [RoundTrip] true. *)
Lemma nil_or_Expired_old n0 s (x : ptr) :
  (n0 <= time_Now (world s))%Z -> tok_old n0 (mem s) x ->
  nil_or_Expired x s = Ok true s.
Proof.
  intros Hn [->|(l & T & -> & HT & He)]; [done|].
  destruct (Expired_eval s l T HT) as (b & Hb & Hiff).
  simpl. rewrite Hb. f_equal. apply Hiff. by eapply token_expired_mono.
Qed.

Lemma nil_or_Expired_new P s (x : ptr) :
  tok_new P (mem s) x -> exists b, nil_or_Expired x s = Ok b s.
Proof.
  intros (l & T & -> & HT & _).
  destruct (Expired_eval s l T HT) as (b & Hb & _). by exists b.
Qed.

(** *** The invariants of a good run *)

Lemma evolves_refl P s s' :
  mem s' = mem s -> t_token s' = t_token s -> trace s' = trace s ->
  evolves P s s'.
Proof.
  intros Hm Ht Htr. unfold evolves. rewrite Hm, Ht, Htr.
  split; [apply store_extends_refl|]. by repeat split.
Qed.

Lemma shared_inv_same P n0 s s' :
  mem s' = mem s -> t_token s' = t_token s -> world s' = world s ->
  shared_inv P n0 s -> shared_inv P n0 s'.
Proof. intros Hm Ht Hw. unfold shared_inv. by rewrite Hm, Ht, Hw. Qed.

Lemma goroutine_inv_evolves P n0 s s' g :
  evolves P s s' -> goroutine_inv P n0 s g -> goroutine_inv P n0 s' g.
Proof.
  intros (Hext & Htok & Htr & Hnew) [(r & Hr & Hok) Hpc].
  split; [exists r; split; [done|]; by eapply request_ok_mono|].
  destruct g as [req p]. simpl in *. subst req.
  destruct p as [[]|[]|[] x|f|token| | |hint|token err|err|token| |res|f];
    simpl in *; try done;
    try (destruct Hpc as [Hpc|Hpc]; [left|right]);
    try (destruct Hpc as [-> Hpc]; split; [done|]);
    eauto using tok_old_mono, tok_new_mono.
  - destruct Hpc as (r2 & T & [= <-] & HP & Hhdr).
    exists r, T. split; [done|]. split; [done|].
    destruct (store_extends_untouched _ _ r Hok Hext) as [_ Hsame].
    by rewrite Hsame.
  - destruct Hpc as (res' & r2 & T & Hres & [= <-] & Hev & HP & Hhdr).
    exists res', r, T. simpl. split; [done|]. split; [done|].
    split; [by apply Htr|]. split; [done|].
    destruct (store_extends_untouched _ _ r Hok Hext) as [_ Hsame].
    by rewrite Hsame.
Qed.

(** A step of a goroutine, with a good fetcher and a steady transport:
    the shared state evolves, and the invariants hold after it. *)
Lemma gstep_inv P n0 g s g' s' :
  good_fetcher P -> steady_transport (R:=R) ->
  (holds_read (g_pc g) = 1 -> 0 < readers (t_mu s)) ->
  (holds_write (g_pc g) = 1 -> writer (t_mu s) = true) ->
  shared_inv P n0 s -> goroutine_inv P n0 s g ->
  gstep g s g' s' ->
  evolves P s s' /\ shared_inv P n0 s' /\ goroutine_inv P n0 s' g'.
Proof.
  intros Hgood Hsteady Hrd Hwr Hsh Hg Hstep.
  destruct Hstep as
    [req again s Hw
    |req again s r s' Hread
    |req again s f Hread
    |req again r s n Hn
    |req f s n Hn
    |req p s Hp Hn
    |req token s b Hchk
    |req token s f Hchk
    |req s Hw Hn
    |req s
    |req hint s w' h' tk err Hfetch
    |req tk e s
    |req tk s
    |req err s Hw
    |req err s Hw
    |req token s req2 s' Hsend
    |req token s f Hsend
    |l s w' res Hdisp
    |s].
  - (* RLock *)
    split; [by apply evolves_refl|]. split; [by eapply shared_inv_same|].
    destruct Hg as [Hreq Hpc]. split; [done|]. by destruct again.
  - (* the read under the lock *)
    apply Token_locked_inv in Hread as (h & -> & Hsub & Ha).
    destruct Hsh as [Hn0 Htok]. destruct Hg as [Hreq Hpc].
    assert (Hev : evolves P s (set_mem (set_tokens h (mem s)) s)).
    { split; [apply store_extends_set_tokens|]. simpl.
      split; [by destruct (mem s)|]. split; [done|].
      apply tok_new_mono. by destruct (mem s). }
    split; [done|]. split.
    { split; [done|]. simpl.
      destruct Htok; [left|right];
        [eapply tok_old_mono|eapply tok_new_mono]; try done;
        by destruct (mem s). }
    split.
    { destruct Hreq as (r0 & ? & ?). exists r0. split; [done|].
      eapply request_ok_mono; [apply Hev|done]. }
    assert (Hcopy : forall (Q : oauth2.Token -> Prop) l T,
      t_token s = Some l -> tokens (mem s) !! l = Some T -> Q T ->
      exists q, r = Some q /\ h !! q = Some T).
    { intros Q l T Hl HT _. destruct r as [q|].
      - destruct Ha as (p & T' & Hp & HT' & Hq). exists q. split; [done|].
        congruence.
      - congruence. }
    simpl in *. destruct again; simpl in *.
    + destruct Hpc as (l & T & Hl & HT & HP).
      destruct (Hcopy P l T Hl HT HP) as (q & -> & Hq).
      exists q, T. by destruct (mem s).
    + destruct Htok as [[Hnil|(l & T & Hl & HT & He)]|(l & T & Hl & HT & HP)].
      * left. left. destruct r as [q|]; [|done].
        destruct Ha as (p & T' & Hp & _). congruence.
      * left. right.
        destruct (Hcopy (token_expired n0) l T Hl HT He) as (q & -> & Hq).
        exists q, T. by destruct (mem s).
      * right.
        destruct (Hcopy P l T Hl HT HP) as (q & -> & Hq).
        exists q, T. by destruct (mem s).
  - (* the read cannot panic *)
    apply Token_locked_fault in Hread as (l & Hl & Hnone).
    destruct Hsh as [_ [[Hnil|(l' & T & Hl' & HT & _)]|(l' & T & Hl' & HT & _)]];
      congruence.
  - (* RUnlock *)
    split; [by apply evolves_refl|]. split; [by eapply shared_inv_same|].
    destruct Hg as [Hreq Hpc]. split; [done|]. by destruct again.
  - (* RUnlock while panicking *)
    by destruct Hg as [_ []].
  - (* RUnlock of a lock not held *)
    specialize (Hrd Hp). lia.
  - (* the condition *)
    destruct Hsh as [Hn0 Htok]. destruct Hg as [Hreq Hpc]. simpl in Hpc.
    split; [by apply evolves_refl|]. split; [done|]. split; [done|].
    destruct b; [done|]. simpl.
    destruct Hpc as [Hold|Hnew]; [|done].
    rewrite (nil_or_Expired_old n0 s token Hn0 Hold) in Hchk. discriminate.
  - (* the condition cannot panic *)
    destruct Hsh as [Hn0 Htok]. destruct Hg as [Hreq Hpc]. simpl in Hpc.
    destruct Hpc as [Hold|Hnew].
    + rewrite (nil_or_Expired_old n0 s token Hn0 Hold) in Hchk. discriminate.
    + destruct (nil_or_Expired_new P s token Hnew) as [b Hb]. congruence.
  - (* Lock *)
    split; [by apply evolves_refl|]. split; [by eapply shared_inv_same|].
    destruct Hg as [Hreq Hpc]. by split.
  - (* entering the fetcher *)
    split.
    { split; [apply store_extends_refl|]. simpl. split; [done|].
      split; [|done]. intros e He. apply elem_of_app. by left. }
    split; [by eapply shared_inv_same|].
    destruct Hg as [Hreq Hpc]. by split.
  - (* leaving the fetcher *)
    destruct (Hgood (world s) (tokens (mem s)) hint)
      as (w2 & h2 & p & T & HF & Hsub & Hp & HP & Hclock).
    rewrite HF in Hfetch. injection Hfetch as <- <- <- <-.
    destruct Hsh as [Hn0 Htok]. destruct Hg as [Hreq Hpc].
    assert (Hev : evolves P s (mkState (set_tokens h2 (mem s)) (t_token s)
                                       (t_mu s) w2 (trace s))).
    { split; [apply store_extends_set_tokens|]. simpl.
      split; [by destruct (mem s)|]. split; [done|].
      apply tok_new_mono. by destruct (mem s). }
    split; [done|]. split.
    { split; [simpl; lia|]. simpl.
      destruct Htok; [left|right];
        [eapply tok_old_mono|eapply tok_new_mono]; try done;
        by destruct (mem s). }
    split.
    { destruct Hreq as (r0 & ? & ?). exists r0. split; [done|].
      eapply request_ok_mono; [apply Hev|done]. }
    simpl. split; [done|]. exists p, T. by destruct (mem s).
  - (* the fetcher does not fail *)
    by destruct Hg as [_ [? _]].
  - (* the new token is stored *)
    destruct Hsh as [Hn0 Htok]. destruct Hg as [Hreq [_ Hnew]].
    simpl in Hnew.
    split; [by split; [apply store_extends_refl|]|].
    split; [by split; [|right]|]. by split.
  - (* Unlock *)
    destruct Hg as [Hreq [-> Hnew]]. simpl in *.
    split; [by apply evolves_refl|]. split; [by eapply shared_inv_same|].
    by split.
  - (* Unlock of a lock not held *)
    specialize (Hwr eq_refl). congruence.
  - (* clone and header *)
    destruct Hg as [(r & Hr & Hok) Hnew]. simpl in *. subst req.
    destruct Hnew as (q & T & -> & HT & HP).
    destruct (request_ok_lookup _ _ Hok) as (v & Hv & Hh).
    rewrite (authorize_eval s r v q T Hv Hh HT) in Hsend.
    injection Hsend as <- <-.
    assert (Hev : evolves P s (set_mem (authorized (mem s) v (authorization_of T)) s)).
    { split; [by apply store_extends_authorized|]. simpl.
      split; [done|]. split; [done|]. apply tok_new_mono. done. }
    split; [done|]. split; [by eapply shared_inv_same|].
    split.
    { eexists. split; [done|]. by apply (request_ok_authorized _ r). }
    simpl. eexists _, T. split; [done|]. split; [done|].
    apply authorized_header.
  - (* clone and header cannot panic *)
    destruct Hg as [(r & Hr & Hok) Hnew]. simpl in *. subst req.
    destruct Hnew as (q & T & -> & HT & HP).
    destruct (request_ok_lookup _ _ Hok) as (v & Hv & Hh).
    rewrite (authorize_eval s r v q T Hv Hh HT) in Hsend. discriminate.
  - (* dispatch *)
    destruct Hsh as [Hn0 Htok].
    destruct Hg as [Hreq (r2 & T & [= <-] & HP & Hhdr)].
    pose proof (Hsteady (world s) (mem s) l) as Hclock.
    rewrite Hdisp in Hclock. simpl in Hclock.
    split.
    { split; [apply store_extends_refl|]. simpl. split; [done|].
      split; [|done]. intros e He. apply elem_of_app. by left. }
    split; [split; [simpl; lia|done]|].
    split; [done|]. simpl.
    exists res, l, T. simpl. split; [done|]. split; [done|].
    split; [|done]. apply elem_of_app. right. apply list_elem_of_here.
  - (* the request is not nil *)
    by destruct Hg as [(r & [=] & _) _].
Qed.

Lemma conc_inv_start P s (reqs : list ptr) :
  stale s ->
  Forall (fun req => exists r, req = Some r /\ request_ok (mem s) r) reqs ->
  conc_inv (R:=R) P (time_Now (world s)) (start s reqs).
Proof.
  intros Hst Hreqs. split; simpl.
  - split; [lia|]. left.
    destruct Hst as [Hnil|(p & T & Hp & HT & He)]; [by left|right].
    by exists p, T.
  - apply Forall_fmap. eapply Forall_impl; [exact Hreqs|].
    intros req (r & -> & Hok). split; [|done]. by exists r.
Qed.

Lemma conc_inv_step P n0 c c' :
  good_fetcher P -> steady_transport (R:=R) ->
  lock_inv c -> conc_inv P n0 c -> cstep c c' -> conc_inv P n0 c'.
Proof.
  intros Hgood Hsteady (Hw & Hr & Hwr) [Hsh Hall] Hstep.
  destruct Hstep as [i g g' s s' gl Hi Hstep]. simpl in *.
  apply step1_gstep in Hstep.
  pose proof (sum_list_with_lookup (fun g => holds_write (g_pc g)) gl i g Hi) as Hwi.
  pose proof (sum_list_with_lookup (fun g => holds_read (g_pc g)) gl i g Hi) as Hri.
  simpl in *.
  destruct (gstep_inv P n0 g s g' s' Hgood Hsteady) as (Hev & Hsh' & Hg'); try done.
  - intros Hh. lia.
  - intros Hh. destruct (writer (t_mu s)); [done|lia].
  - by eapply Forall_lookup_1.
  - split; [done|]. simpl. apply Forall_insert; [|done].
    eapply Forall_impl; [exact Hall|].
    intros x Hx. by eapply goroutine_inv_evolves.
Qed.

Lemma good_run_inv P n0 c c' :
  good_fetcher P -> steady_transport (R:=R) ->
  lock_inv c -> conc_inv P n0 c -> rtc cstep c c' -> conc_inv P n0 c'.
Proof.
  intros Hgood Hsteady Hlock Hinv Hrtc.
  induction Hrtc as [|c1 c2 c3 Hstep _ IH]; [done|].
  apply IH; [by eapply lock_inv_step|by eapply conc_inv_step].
Qed.

(** A goroutine that has finished in a good run has completed. *)
Lemma goroutine_inv_finished P n0 s g :
  goroutine_inv P n0 s g -> finished (g_pc g) = true -> completed P s g.
Proof.
  intros [_ Hpc] Hfin. destruct g as [req p]. simpl in *.
  by destruct p.
Qed.

(** *** Schedules *)

Lemma run_schedule_rtc (sched : list nat) c : rtc cstep c (run_schedule sched c).
Proof.
  revert c. induction sched as [|i sched IH]; intros c; simpl; [done|].
  destruct (gs c !! i) as [g|] eqn:Hi; [|done].
  destruct (step1 g (shared c)) as [[g' s']|] eqn:Hstep; [|done].
  eapply rtc_l; [|apply IH]. destruct c as [s gl]. by eapply cstep_at.
Qed.

Lemma cstep_inv c c' :
  cstep c c' ->
  exists i g g' s', gs c !! i = Some g /\ step1 g (shared c) = Some (g', s').
Proof.
  destruct 1 as [i g g' s s' gl Hi Hstep]. simpl. by exists i, g, g', s'.
Qed.

Lemma cstep_length c c' : cstep c c' -> length (gs c') = length (gs c).
Proof. destruct 1. simpl. apply length_insert. Qed.

Lemma rtc_cstep_length c c' : rtc cstep c c' -> length (gs c') = length (gs c).
Proof.
  induction 1 as [|c1 c2 c3 Hstep _ IH]; [done|].
  rewrite IH. by apply cstep_length.
Qed.

Lemma in_fetch_holds_write (p : pc R) : in_fetch p <= holds_write p.
Proof. destruct p; simpl; lia. Qed.

Lemma sum_list_with_le {A} (f h : A -> nat) (l : list A) :
  (forall x, f x <= h x) -> sum_list_with f l <= sum_list_with h l.
Proof.
  intros Hle. induction l as [|a l IH]; simpl; [lia|].
  specialize (Hle a). lia.
Qed.

Lemma finished_step1 g s : finished (g_pc g) = true -> step1 g s = None.
Proof. destruct g as [req p]. by destruct p. Qed.

(** When all goroutines have finished, nothing can step. *)
Lemma finished_quiescent c :
  Forall (fun g => finished (g_pc g) = true) (gs c) -> forall c', ~ cstep c c'.
Proof.
  intros Hall c' Hstep.
  destruct (cstep_inv _ _ Hstep) as (i & g & g' & s' & Hi & Hs).
  rewrite (finished_step1 g) in Hs; [done|].
  exact (Forall_lookup_1 _ _ _ _ Hall Hi).
Qed.

(** *** One goroutine alone makes the round trip of [RoundTrip] *)

Lemma advance_Ok {A} (c : M W A) (k : A -> goroutine R) on_panic s a s' :
  c s = Ok a s' -> advance c k on_panic s = Some (k a, s').
Proof. intros H. unfold advance. by rewrite H. Qed.

Lemma solo_step g s g' s' c :
  step1 g s = Some (g', s') ->
  rtc cstep (mkConfig s' [g']) c -> rtc cstep (mkConfig s [g]) c.
Proof.
  intros Hstep Hrtc. eapply rtc_l; [|exact Hrtc].
  by apply (cstep_at 0 g g' s s' [g]).
Qed.

Lemma call_FetchToken_split (hint : ptr) s :
  call_FetchToken hint s = (fetch_enter hint ;; fetch_leave hint)%go s.
Proof.
  unfold call_FetchToken, fetch_enter, fetch_leave, bind, modify. simpl.
  by destruct (FetchToken _ _ _) as [[w' h'] r].
Qed.

Lemma solo_Token (again : bool) (req r : ptr) s s' c :
  Token s = Ok r s' ->
  rtc cstep (mkConfig s' [mkG req (if again then AtSend r else AtCheck r)]) c ->
  rtc cstep (mkConfig s [mkG (R:=R) req (AtToken again)]) c.
Proof.
  intros H Hrtc. unfold Token in H.
  apply bind_inv in H as ([] & s1 & H1 & H).
  apply bind_inv in H as (r' & s2 & H2 & H).
  apply bind_inv in H as ([] & s3 & H3 & H).
  injection H as -> ->.
  eapply solo_step; [by apply advance_Ok|]. simpl.
  eapply solo_step; [by apply advance_Ok|]. simpl.
  eapply solo_step; [by apply advance_Ok|]. done.
Qed.

Lemma solo_send req (token : ptr) s res s' :
  (req2 <- cloneRequest req ;;
   tk <- load tokens token ;;
   let typ := if decide (oauth2.TokenType tk = "") then defaultTokenType
              else oauth2.TokenType tk in
   r2 <- load requests req2 ;;
   Header_Set (http.Header r2) "Authorization"
              (typ +:+ " " +:+ oauth2.AccessToken tk) ;;
   call_DefaultTransport (R:=R) req2) s = Ok res s' ->
  exists req', rtc cstep (mkConfig s [mkG req (AtSend token)])
                         (mkConfig s' [mkG req' (Returned res)]).
Proof.
  intros H.
  apply bind_inv in H as (req2 & s1 & H1 & H).
  apply bind_inv in H as (tk & s2 & H2 & H).
  apply bind_inv in H as (r2 & s3 & H3 & H).
  apply bind_inv in H as ([] & s4 & H4 & H).
  exists req2.
  eapply solo_step.
  { apply advance_Ok. unfold authorize.
    rewrite (bind_Ok _ _ _ _ _ H1), (bind_Ok _ _ _ _ _ H2).
    cbv zeta. rewrite (bind_Ok _ _ _ _ _ H3), (bind_Ok _ _ _ _ _ H4).
    reflexivity. }
  eapply solo_step; [by apply advance_Ok|]. done.
Qed.

(** Whenever [RoundTrip] returns, a goroutine that runs alone reaches
    [Returned] with the same result, in the same state. *)
Lemma solo_RoundTrip (req : ptr) s res s' :
  RoundTrip (R:=R) req s = Ok res s' ->
  exists req', rtc cstep (start s [req])
                         (mkConfig s' [mkG req' (Returned res)]).
Proof.
  intros H. unfold RoundTrip in H. unfold start. simpl.
  apply bind_inv in H as (tk & s1 & HT & H).
  apply bind_inv in H as (b & s1' & HE & H).
  pose proof (nil_or_Expired_state _ _ _ _ HE) as ->.
  apply bind_inv in H as (refreshed & s2 & HRf & H).
  assert (Hhead : forall c,
    rtc cstep (mkConfig s1 [mkG req (if b then AtLock else AtSend tk)]) c ->
    rtc cstep (mkConfig s [mkG (R:=R) req (AtToken false)]) c).
  { intros c Hc. eapply (solo_Token false); [exact HT|]. simpl.
    eapply solo_step; [by apply advance_Ok|]. done. }
  destruct b.
  - apply bind_inv in HRf as (err & s3 & HR & HRf).
    unfold RefreshToken in HR.
    apply bind_inv in HR as ([] & s4 & HL & HR).
    unfold bind at 1 in HR. unfold get at 1 in HR.
    apply bind_inv in HR as ([token e] & s5 & HF & HR).
    rewrite call_FetchToken_split in HF.
    apply bind_inv in HF as ([] & s4' & HF1 & HF2).
    assert (Hrefresh : forall c,
      rtc cstep (mkConfig s5 [mkG req (AtStore token e)]) c ->
      rtc cstep (mkConfig s [mkG (R:=R) req (AtToken false)]) c).
    { intros c Hc. apply Hhead.
      eapply solo_step; [by apply advance_Ok|]. simpl.
      eapply solo_step; [by apply advance_Ok|]. simpl.
      eapply solo_step; [by apply advance_Ok|]. done. }
    destruct e as [e|].
    + apply bind_inv in HR as ([] & s6 & HU & HR).
      injection HR as <- <-. injection HRf as <- <-. injection H as <- <-.
      exists req. apply Hrefresh.
      eapply solo_step; [reflexivity|].
      eapply solo_step; [by apply advance_Ok|]. done.
    + apply bind_inv in HR as ([] & s6 & HS & HR).
      apply bind_inv in HR as ([] & s7 & HU & HR).
      injection HR as <- <-.
      apply bind_inv in HRf as (tk' & s8 & HT' & HRf).
      injection HRf as <- <-.
      destruct (solo_send req tk' _ _ _ H) as (req' & Hsend).
      exists req'. apply Hrefresh.
      eapply solo_step; [by apply advance_Ok|]. simpl.
      eapply solo_step; [by apply advance_Ok|]. simpl.
      eapply (solo_Token true); [exact HT'|]. done.
  - injection HRf as <- <-.
    destruct (solo_send req tk _ _ _ H) as (req' & Hsend).
    exists req'. by apply Hhead.
Qed.

(** C3, as amended.  [N] goroutines run [RoundTrip] on one transport whose
    mutex is free at the start; [c] is any configuration they can reach,
    under any schedule.  Then: no two goroutines are inside the fetcher at
    once, and the one that is holds the write lock; the fetcher has been
    called at most [N] times; as long as a goroutine has not finished some
    goroutine can step, and no execution has more than [15 * N] steps, so
    every execution ends with all goroutines finished.  If moreover the
    stored token is missing or expired at the start, the requests are sound,
    every fetch returns, without error, a pointer to a token with property
    [P], and the collaborators do not move the clock back, then every
    goroutine that has finished has returned after dispatching its clone
    with [Authorization: <Type> <AccessToken>] of a token with property [P];
    in particular all have, once nothing can step. *)
Theorem concurrent_round_trips (P : oauth2.Token -> Prop) s0 (reqs : list ptr) c :
  t_mu s0 = unlocked ->
  rtc cstep (start s0 reqs) c ->
  length (gs c) = length reqs /\
  (forall i j gi gj,
      gs c !! i = Some gi -> gs c !! j = Some gj ->
      in_fetch (g_pc gi) = 1 -> in_fetch (g_pc gj) = 1 -> i = j) /\
  (forall g, g ∈ gs c -> in_fetch (g_pc g) = 1 ->
             t_mu (shared c) = mkMu true 0) /\
  fetch_count (trace (shared c)) <= fetch_count (trace s0) + length reqs /\
  ((exists g, g ∈ gs c /\ finished (g_pc g) = false) -> exists c', cstep c c') /\
  (forall n c', nsteps cstep n (start s0 reqs) c' -> n <= 15 * length reqs) /\
  (stale s0 ->
   Forall (fun req => exists r, req = Some r /\ request_ok (mem s0) r) reqs ->
   good_fetcher P -> steady_transport (R:=R) ->
   (forall g, g ∈ gs c -> finished (g_pc g) = true -> completed P (shared c) g) /\
   ((forall c', ~ cstep c c') -> Forall (completed P (shared c)) (gs c))).
Proof.
  intros Hmu Hrtc.
  pose proof (lock_inv_rtc _ _ (lock_inv_start s0 reqs Hmu) Hrtc) as Hlock.
  assert (Hone : sum_list_with (fun g => in_fetch (g_pc g)) (gs c) <= 1).
  { destruct Hlock as (Hw & _).
    etrans; [apply (sum_list_with_le _ (fun g => holds_write (g_pc g)))|].
    - intros x. apply in_fetch_holds_write.
    - rewrite Hw. destruct (writer _); lia. }
  split.
  { rewrite (rtc_cstep_length _ _ Hrtc). unfold start. simpl.
    apply length_fmap. }
  split.
  { intros i j gi gj Hi Hj Hgi Hgj.
    by apply (sum_list_with_le_1 (fun g => in_fetch (g_pc g)) (gs c) i j gi gj). }
  split.
  { intros g Hin Hg. destruct Hlock as (Hw & Hr & Hwr).
    apply list_elem_of_lookup in Hin as [i Hi].
    pose proof (sum_list_with_lookup (fun g => holds_write (g_pc g)) (gs c) i g Hi) as Hle.
    pose proof (in_fetch_holds_write (g_pc g)). simpl in Hle.
    destruct (t_mu (shared c)) as [wr rd]. simpl in *.
    destruct wr; [|lia]. by rewrite (Hwr eq_refl). }
  split.
  { pose proof (fetch_potential_rtc _ _ Hrtc) as Hpot.
    rewrite may_fetch_start in Hpot. simpl in Hpot. lia. }
  split.
  { intros (g & Hin & Hfin). by eapply progress. }
  split.
  { intros n c' Hn. apply nsteps_bound in Hn.
    rewrite steps_left_start in Hn. lia. }
  intros Hst Hreqs Hgood Hsteady.
  pose proof (good_run_inv P _ _ _ Hgood Hsteady (lock_inv_start s0 reqs Hmu)
                (conc_inv_start P s0 reqs Hst Hreqs) Hrtc) as [_ Hall].
  assert (Hfin : forall g, g ∈ gs c -> finished (g_pc g) = true ->
                           completed P (shared c) g).
  { intros g Hin Hf. rewrite Forall_forall in Hall.
    by eapply goroutine_inv_finished; [apply Hall|]. }
  split; [done|].
  intros Hquiet. apply Forall_forall. intros g Hin. apply Hfin; [done|].
  destruct (finished (g_pc g)) eqn:Hf; [done|].
  destruct (progress c g Hlock Hin Hf) as [c' Hc']. by destruct (Hquiet c').
Qed.

End ConcFacts.

(** ** Concurrent round trips on the concrete transport *)

Lemma demo_good_fetcher :
  good_fetcher (TokenFetcher0 := demo_fetcher) (Clock0 := demo_clock)
               issued_by_demo_fetcher.
Proof.
  intros w h hint. eexists w, _, _, _.
  split; [reflexivity|]. split; [apply insert_fresh_subseteq|].
  split; [apply lookup_insert_eq|]. split; [reflexivity|].
  unfold time_Now, demo_clock. lia.
Qed.

Lemma demo_steady_transport :
  steady_transport (RoundTripper0 := demo_transport) (Clock0 := demo_clock).
Proof. intros w m l. simpl. unfold time_Now, demo_clock. lia. Qed.

Lemma demo_reqs_ok :
  Forall (fun req => exists r, req = Some r /\ request_ok (mem demo_expired) r)
         demo_reqs.
Proof.
  repeat constructor; exists 1%positive; split; try done; apply demo_request_ok.
Qed.

Lemma demo_done_finished :
  Forall (fun g => finished (g_pc g) = true) (gs demo_done).
Proof.
  refine (bool_decide_unpack _ _). vm_compute. exact I.
Qed.

Lemma demo_failed_finished :
  Forall (fun g => finished (g_pc g) = true) (gs demo_failed).
Proof.
  refine (bool_decide_unpack _ _). vm_compute. exact I.
Qed.

Lemma concurrent_round_trips_witness :
  t_mu demo_expired = unlocked /\
  length (gs demo_done) = 2 /\
  fetch_count (trace (shared demo_done)) <= 2 /\
  Forall (completed issued_by_demo_fetcher (shared demo_done)) (gs demo_done).
Proof.
  split; [reflexivity|].
  destruct (concurrent_round_trips
              (TokenFetcher0 := demo_fetcher) (RoundTripper0 := demo_transport)
              (Clock0 := demo_clock)
              issued_by_demo_fetcher demo_expired demo_reqs demo_done
              eq_refl (run_schedule_rtc _ _))
    as (Hlen & _ & _ & Hcount & _ & _ & Hcompl).
  split; [exact Hlen|]. split; [exact Hcount|].
  destruct (Hcompl demo_expired_stale demo_reqs_ok demo_good_fetcher
                   demo_steady_transport) as [_ Hall].
  apply Hall. apply finished_quiescent. exact demo_done_finished.
Defined.

(** C3, as stated, fails: with a fetcher that fails, the two round trips
    reach a configuration where nothing can step, two fetches were made,
    and neither goroutine has dispatched a request. *)
Lemma round_trips_incomplete_when_fetch_fails :
  rtc (cstep (TokenFetcher0 := failing_fetcher) (RoundTripper0 := demo_transport)
             (Clock0 := demo_clock))
      (start demo_expired demo_reqs) demo_failed /\
  (forall c', ~ cstep (TokenFetcher0 := failing_fetcher)
                      (RoundTripper0 := demo_transport) (Clock0 := demo_clock)
                      demo_failed c') /\
  g_pc <$> gs demo_failed
    = [Returned (None, Some "invalid_grant"); Returned (None, Some "invalid_grant")] /\
  forall P g, g ∈ gs demo_failed -> ~ completed P (shared demo_failed) g.
Proof.
  split; [apply run_schedule_rtc|].
  split; [apply finished_quiescent; exact demo_failed_finished|].
  split; [vm_compute; reflexivity|].
  assert (Htr : trace (shared demo_failed)
                = [EvFetch (Some 2%positive); EvFetch (Some 2%positive)])
    by (vm_compute; reflexivity).
  intros P g _ (res & r2 & T & _ & _ & Hev & _).
  rewrite Htr in Hev.
  apply elem_of_cons in Hev as [Hev|Hev]; [discriminate Hev|].
  apply elem_of_cons in Hev as [Hev|Hev]; [discriminate Hev|].
  exact (not_elem_of_nil _ Hev).
Qed.

(** ** More of the transport: the setter, the constructor, composition *)

Section MoreFacts.
Context {W R : Type} `{!TokenFetcher W} `{!RoundTripper W R} `{!Clock W}.
Implicit Types (s : State W) (l q : loc) (T : oauth2.Token).

Lemma SetToken_eval s (token : ptr) :
  t_mu s = unlocked -> SetToken token s = Ok tt (set_t_token token s).
Proof.
  destruct s as [m tt mu w tr]. simpl. intros ->. reflexivity.
Qed.

Lemma SetToken_inv s (token : ptr) a s' :
  SetToken token s = Ok a s' -> t_mu s = unlocked /\ s' = set_t_token token s.
Proof.
  destruct s as [m tt [wr rd] w tr].
  unfold SetToken, bind, Lock, modify, Unlock. simpl.
  destruct wr; [discriminate|]. destruct rd; [|discriminate]. simpl.
  by intros [= <-].
Qed.

(** X1.  [SetToken] then [Token]: the setter takes any pointer, nil included,
    without looking at the token; the getter then returns nil for nil, and
    otherwise a new object with the fields of the token that was set.
    Store, world and trace are untouched by the setter, and the mutex is
    free again. *)
Theorem SetToken_then_Token s (token : ptr) :
  t_mu s = unlocked ->
  (forall l, token = Some l -> is_Some (tokens (mem s) !! l)) ->
  exists s1,
    SetToken token s = Ok tt s1 /\
    t_token s1 = token /\ mem s1 = mem s /\ t_mu s1 = unlocked /\
    world s1 = world s /\ trace s1 = trace s /\
    match token with
    | None => Token s1 = Ok None s1
    | Some l =>
        exists T q s2,
          tokens (mem s) !! l = Some T /\
          Token s1 = Ok (Some q) s2 /\
          q <> l /\ tokens (mem s2) !! q = Some T /\ t_token s2 = Some l
    end.
Proof.
  intros Hmu Hok. exists (set_t_token token s).
  split; [by apply SetToken_eval|]. simpl.
  split; [done|]. split; [done|]. split; [done|]. split; [done|].
  split; [done|].
  destruct token as [l|].
  - destruct (Hok l eq_refl) as [T HT].
    exists T. eexists _, _. split; [done|].
    split; [apply (Token_some _ l T); [done|done|simpl; by rewrite Hmu]|].
    simpl. split.
    { intros Heq. rewrite <- Heq in HT. by rewrite fresh_dom_None in HT. }
    split; [apply lookup_insert_eq|done].
  - apply Token_nil; [done|]. simpl. by rewrite Hmu.
Qed.

(** X2.  [SetToken] keeps the caller's pointer, it does not copy: what the
    caller writes into its token after the call is what [Token] reads. *)
Theorem SetToken_keeps_pointer s l T T' :
  t_mu s = unlocked -> tokens (mem s) !! l = Some T ->
  exists s1 s2 q s3,
    SetToken (Some l) s = Ok tt s1 /\
    store_token (Some l) T' s1 = Ok tt s2 /\
    Token s2 = Ok (Some q) s3 /\
    tokens (mem s3) !! q = Some T'.
Proof.
  intros Hmu HT.
  eexists _, _, _, _. split; [by apply SetToken_eval|].
  split.
  { unfold store_token. simpl. by rewrite HT. }
  split.
  { apply (Token_some _ l T'); simpl;
      [done|apply lookup_insert_eq|by rewrite Hmu]. }
  simpl. apply lookup_insert_eq.
Qed.

(** X3.  [RefreshToken] does not look at the stored token: with the mutex free
    it calls the fetcher once, with the stored pointer itself as hint, also
    when the stored token is still valid.  On success the pointer the
    fetcher returned becomes the stored token as it is, nil included, and
    [Token] then returns a copy of the new token (or nil); on error the
    stored pointer stays.  Either way the mutex is free again, and requests,
    header maps and arrays are untouched. *)
Theorem RefreshToken_always_fetches s w' h' (tk : ptr) (err : error) :
  t_mu s = unlocked ->
  FetchToken (world s) (tokens (mem s)) (t_token s) = (w', h', (tk, err)) ->
  exists s',
    RefreshToken s = Ok err s' /\
    trace s' = trace s ++ [EvFetch (t_token s)] /\
    t_mu s' = unlocked /\ world s' = w' /\ tokens (mem s') = h' /\
    requests (mem s') = requests (mem s) /\
    headers (mem s') = headers (mem s) /\
    arrays (mem s') = arrays (mem s) /\
    (forall e, err = Some e -> t_token s' = t_token s) /\
    (err = None -> t_token s' = tk) /\
    (err = None -> tk = None -> Token s' = Ok None s') /\
    (forall p2 T2, err = None -> tk = Some p2 -> h' !! p2 = Some T2 ->
       exists q s2, Token s' = Ok (Some q) s2 /\ q <> p2 /\
                    tokens (mem s2) !! q = Some T2).
Proof.
  intros Hmu HF. eexists. split; [by apply RefreshToken_eval|]. simpl.
  split; [done|]. split; [done|]. split; [done|].
  split; [by destruct (mem s)|]. split; [by destruct (mem s)|].
  split; [by destruct (mem s)|]. split; [by destruct (mem s)|].
  split; [by intros e ->|]. split; [by intros ->|].
  split.
  - intros -> ->. by apply Token_nil.
  - intros p2 T2 -> -> HT2.
    assert (HT2' : tokens (set_tokens h' (mem s)) !! p2 = Some T2)
      by (by destruct (mem s)).
    eexists _, _. split; [by apply (Token_some _ p2 T2)|]. simpl.
    split; [|apply lookup_insert_eq].
    intros Heq. rewrite <- Heq in HT2'. by rewrite fresh_dom_None in HT2'.
Qed.

(** X4.  A transport built with a nil token, whatever the program state around
    it: [Token] returns nil, and the first round trip calls the fetcher
    with a nil hint, stores the token it returns and dispatches the request
    authorized with it. *)
Theorem NewAuthorizedTransport_first_use s0 r w' h' p2 T2 :
  request_ok (mem s0) r ->
  fetcher_answer (NewAuthorizedTransport None s0) = (w', h', (Some p2, None)) ->
  h' !! p2 = Some T2 ->
  Token (NewAuthorizedTransport None s0) = Ok None (NewAuthorizedTransport None s0) /\
  exists res r2 s',
    RoundTrip (R:=R) (Some r) (NewAuthorizedTransport None s0) = Ok res s' /\
    trace s' = trace s0 ++ [EvFetch None; EvDispatch r2] /\
    t_token s' = Some p2 /\ tokens (mem s') !! p2 = Some T2 /\
    t_mu s' = unlocked /\
    request_header (mem s') r2 "Authorization" = Some [authorization_of T2].
Proof.
  intros Hok HF HT2.
  split; [by apply Token_nil|].
  destruct (request_ok_lookup _ _ Hok) as (v & Hr & Hh).
  rewrite (RoundTrip_refresh_sent _ r v w' h' p2 T2); try done; [|by left].
  cbv zeta. eexists _, (fresh (dom (requests (mem s0)))), _.
  split; [reflexivity|]. simpl.
  split; [by rewrite <- app_assoc|]. split; [done|].
  split.
  { rewrite lookup_insert_ne; [done|].
    intros Heq. rewrite <- Heq in HT2. by rewrite fresh_dom_None in HT2. }
  split; [done|].
  replace (requests (mem s0))
    with (requests (set_tokens (<[fresh (dom h') := T2]> h') (mem s0)))
    by (by destruct (mem s0)).
  apply authorized_header.
Qed.

(** X5.  The token fetched by one round trip serves the next: after a round
    trip that refreshed, a second round trip on the same request, made while
    the fetched token is not expired, does not call the fetcher; it
    dispatches a second clone, authorized with the same token. *)
Theorem second_RoundTrip_reuses_token s r w' h' p2 T2 :
  t_mu s = unlocked -> stale s -> request_ok (mem s) r ->
  fetcher_answer s = (w', h', (Some p2, None)) -> h' !! p2 = Some T2 ->
  exists res r2 s1,
    RoundTrip (R:=R) (Some r) s = Ok res s1 /\
    trace s1 = trace s ++ [EvFetch (t_token s); EvDispatch r2] /\
    (~ token_expired (time_Now (world s1)) T2 ->
     exists res' r3 s2,
       RoundTrip (R:=R) (Some r) s1 = Ok res' s2 /\
       trace s2 = trace s1 ++ [EvDispatch r3] /\
       r3 <> r2 /\ t_token s2 = Some p2 /\
       request_header (mem s2) r3 "Authorization" = Some [authorization_of T2]).
Proof.
  intros Hmu Hst Hok HF HT2.
  destruct (request_ok_lookup _ _ Hok) as (v & Hr & Hh).
  rewrite (RoundTrip_refresh_sent s r v w' h' p2 T2) by done.
  cbv zeta.
  set (m1 := authorized (set_tokens (<[fresh (dom h') := T2]> h') (mem s)) v
                        (authorization_of T2)).
  set (r2 := fresh (dom (requests (mem s)))).
  set (s1 := mkState m1 (Some p2) unlocked (Transport_RoundTrip w' m1 r2).1
                     ((trace s ++ [EvFetch (t_token s)]) ++ [EvDispatch r2])).
  exists (Transport_RoundTrip w' m1 r2).2, r2, s1.
  split; [done|]. split; [subst s1; simpl; by rewrite <- app_assoc|].
  intros Hvalid.
  assert (Hne : r2 <> r).
  { intros Heq. subst r2. rewrite <- Heq in Hr. by rewrite fresh_dom_None in Hr. }
  assert (Hr1 : requests (mem s1) !! r = Some v).
  { subst s1 m1. simpl. rewrite lookup_insert_ne; [|done]. by destruct (mem s). }
  assert (Hh1 : forall h, http.Header v = Some h -> is_Some (headers (mem s1) !! h)).
  { intros h HH. destruct (Hh h HH) as [hm Hhm]. subst s1 m1. simpl.
    exists hm. rewrite lookup_insert_ne; [by destruct (mem s)|].
    intros Heq. destruct (mem s); simpl in *. rewrite <- Heq in Hhm.
    by rewrite fresh_dom_None in Hhm. }
  assert (Hv1 : holds_valid s1 T2).
  { exists p2. split; [done|]. split; [|done]. subst s1 m1. simpl.
    rewrite lookup_insert_ne; [done|].
    intros Heq. rewrite <- Heq in HT2. by rewrite fresh_dom_None in HT2. }
  destruct (RoundTrip_valid_sent s1 r v T2 eq_refl Hv1 Hr1 Hh1) as (h1 & ->).
  cbv zeta. eexists _, (fresh (dom (requests (mem s1)))), _.
  split; [reflexivity|]. simpl. split; [done|].
  split.
  { intros Heq. assert (Hin : requests m1 !! r2 <> None).
    { subst m1 r2. simpl. rewrite lookup_insert_eq. done. }
    apply Hin. rewrite <- Heq. apply fresh_dom_None. }
  split; [done|].
  replace (requests m1) with (requests (set_tokens h1 m1)) by (by destruct m1).
  apply authorized_header.
Qed.

Lemma send_frame (req token : ptr) s res s' :
  (req2 <- cloneRequest req ;;
   tk <- load tokens token ;;
   let typ := if decide (oauth2.TokenType tk = "") then defaultTokenType
              else oauth2.TokenType tk in
   r2 <- load requests req2 ;;
   Header_Set (http.Header r2) "Authorization"
              (typ +:+ " " +:+ oauth2.AccessToken tk) ;;
   call_DefaultTransport (R:=R) req2) s = Ok res s' ->
  t_mu s' = t_mu s /\ t_token s' = t_token s.
Proof.
  intros H.
  apply bind_inv in H as (req2 & s1 & H1 & H).
  apply (local_Ok _ _ _ _ (local_cloneRequest _)) in H1 as [m1 ->].
  apply bind_inv in H as (tk & s2 & H2 & H).
  apply (local_Ok _ _ _ _ (local_load _ _)) in H2 as [m2 ->].
  apply bind_inv in H as (r2 & s3 & H3 & H).
  apply (local_Ok _ _ _ _ (local_load _ _)) in H3 as [m3 ->].
  apply bind_inv in H as ([] & s4 & H4 & H).
  apply (local_Ok _ _ _ _ (local_Header_Set _ _ _)) in H4 as [m4 ->].
  unfold call_DefaultTransport in H. destruct req2 as [l|]; [|discriminate].
  destruct (Transport_RoundTrip _ _ _) as [w' r]. by injection H as _ <-.
Qed.

Lemma RefreshToken_inv_mu s e s' :
  RefreshToken s = Ok e s' -> t_mu s = unlocked /\ t_mu s' = unlocked.
Proof.
  destruct s as [m tt [wr rd] w tr].
  unfold RefreshToken, bind, Lock, get, call_FetchToken. simpl.
  destruct wr; [discriminate|]. destruct rd; [|discriminate]. simpl.
  destruct (FetchToken w (tokens m) tt) as [[w' h'] [tk err]].
  destruct err; simpl; by intros [= <- <-].
Qed.

(** X7.  Every operation that returns leaves the mutex as it found it: the read
    lock of [Token], the write lock of [SetToken] and [RefreshToken], and
    the locks [RoundTrip] takes through them, on every path, whatever the
    request. *)
Theorem mutex_released s :
  (forall a s', Token s = Ok a s' -> t_mu s' = t_mu s) /\
  (forall (token : ptr) a s', SetToken token s = Ok a s' -> t_mu s' = t_mu s) /\
  (forall e s', RefreshToken s = Ok e s' -> t_mu s' = t_mu s) /\
  (forall (req : ptr) res s', RoundTrip (R:=R) req s = Ok res s' -> t_mu s' = t_mu s).
Proof.
  split; [|split; [|split]].
  - intros a s' H. by apply Token_inv in H as (h & -> & _).
  - intros token a s' H. by apply SetToken_inv in H as [Hmu ->].
  - intros e s' H. apply RefreshToken_inv_mu in H as [-> ->]. done.
  - intros req res s' H. unfold RoundTrip in H.
    apply bind_inv in H as (tk & s1 & HT & H).
    apply Token_inv in HT as (h1 & -> & _).
    apply bind_inv in H as (b & s1' & HE & H).
    apply nil_or_Expired_state in HE as ->.
    apply bind_inv in H as (refreshed & s2 & HRf & H).
    destruct b.
    + apply bind_inv in HRf as (err & s3 & HR & HRf).
      apply RefreshToken_inv_mu in HR as [Hmu Hmu3]. simpl in Hmu.
      destruct err as [e|].
      * injection HRf as <- <-. injection H as _ <-. congruence.
      * apply bind_inv in HRf as (tk' & s4 & HT' & HRf).
        injection HRf as <- <-.
        apply Token_inv in HT' as (h4 & -> & _).
        apply send_frame in H as [-> _]. simpl. congruence.
    + injection HRf as <- <-. by apply send_frame in H as [-> _].
Qed.

(** X8.  A nil request: once the token is settled, by a valid stored token or by
    a refresh that succeeded, [cloneRequest] dereferences the request and
    the round trip panics.  (When the refresh fails the error is returned
    first, as for any request.) *)
Theorem RoundTrip_nil_request s :
  (forall T, writer (t_mu s) = false -> holds_valid s T ->
             RoundTrip (R:=R) None s = Fault NilDeref) /\
  (forall w' h' tk, t_mu s = unlocked -> stale s ->
                    fetcher_answer s = (w', h', (tk, None)) ->
                    (forall p2, tk = Some p2 -> is_Some (h' !! p2)) ->
                    RoundTrip (R:=R) None s = Fault NilDeref).
Proof.
  split.
  - intros T Hmu Hv.
    destruct (check_valid s T Hmu Hv) as (q & h & HT & HE & Hq).
    unfold RoundTrip.
    by rewrite (bind_Ok _ _ _ _ _ HT), (bind_Ok _ _ _ _ _ HE).
  - intros w' h' tk Hmu Hst HF Htk.
    rewrite (RoundTrip_refreshed s None w' h' tk) by done.
    destruct tk as [p2|].
    + destruct (Htk p2 eq_refl) as [T2 HT2].
      erewrite bind_Ok; [done|].
      apply (Token_some _ p2 T2); [done|by destruct (mem s)|done].
    + by erewrite bind_Ok; [|by apply Token_nil].
Qed.

Lemma RoundTrip_sent_inv s r res s' r2 :
  request_ok (mem s) r ->
  RoundTrip (R:=R) (Some r) s = Ok res s' ->
  last (trace s') = Some (EvDispatch r2) ->
  exists h v value,
    requests (mem s) !! r = Some v /\
    mem s' = authorized (set_tokens h (mem s)) v value /\
    r2 = fresh (dom (requests (mem s))).
Proof.
  intros Hok H Hlast. unfold RoundTrip in H.
  apply bind_inv in H as (tk & s1 & HT & H).
  apply Token_inv in HT as (h1 & -> & _ & Htk).
  apply bind_inv in H as (b & s1' & HE & H).
  apply nil_or_Expired_state in HE as ->.
  apply bind_inv in H as (refreshed & s2 & HRf & H).
  assert (Hsend : forall sa (token : ptr) h,
    mem sa = set_tokens h (mem s) ->
    (forall q, token = Some q -> is_Some (tokens (mem sa) !! q)) ->
    (req2 <- cloneRequest (Some r) ;;
     tk <- load tokens token ;;
     let typ := if decide (oauth2.TokenType tk = "") then defaultTokenType
                else oauth2.TokenType tk in
     r2 <- load requests req2 ;;
     Header_Set (http.Header r2) "Authorization"
                (typ +:+ " " +:+ oauth2.AccessToken tk) ;;
     call_DefaultTransport (R:=R) req2) sa = Ok res s' ->
    exists h v value,
      requests (mem s) !! r = Some v /\
      mem s' = authorized (set_tokens h (mem s)) v value /\
      r2 = fresh (dom (requests (mem s)))).
  { intros sa token h Hm Hq Hs.
    assert (Hoka : request_ok (mem sa) r).
    { rewrite Hm. by apply request_ok_set_tokens. }
    destruct (send_inv sa r token res s' Hoka Hq Hs) as (v & value & Hv & Hm' & Htr).
    assert (Hreq : requests (mem sa) = requests (mem s)).
    { rewrite Hm. by destruct (mem s). }
    exists h, v, value. split; [by rewrite <- Hreq|].
    split; [by rewrite Hm', Hm|].
    rewrite Htr, last_snoc in Hlast. injection Hlast as <-. by rewrite Hreq. }
  destruct b.
  - apply bind_inv in HRf as (err & s2' & HR & HRf).
    apply RefreshToken_inv in HR as (h2 & Hm2 & Htr2).
    destruct err as [e|].
    + injection HRf as <- <-. injection H as _ <-.
      rewrite Htr2, last_snoc in Hlast. discriminate.
    + apply bind_inv in HRf as (tk' & s3 & HT' & HRf).
      injection HRf as <- <-.
      apply Token_inv in HT' as (h3 & -> & _ & Htk').
      refine (Hsend _ tk' h3 _ _ H).
      * simpl. rewrite Hm2. by destruct s as [[] ? ? ? ?].
      * intros q ->. destruct Htk' as (p & T & _ & _ & Hq). simpl. eauto.
  - injection HRf as <- <-.
    refine (Hsend _ tk h1 _ _ H).
    + by destruct s as [[] ? ? ? ?].
    + intros q ->. destruct Htk as (p & T & _ & _ & Hq). simpl.
      destruct s as [[] ? ? ? ?]. simpl in *. eauto.
Qed.

Lemma authorized_other_header (m : Mem) r v value k :
  request_ok m r -> requests m !! r = Some v -> k <> "Authorization" ->
  request_header (authorized m v value) (fresh (dom (requests m))) k
  = request_header m r k.
Proof.
  intros (v' & Hv' & Hh) Hv Hk. assert (v' = v) as -> by congruence.
  unfold request_header, authorized. simpl.
  rewrite lookup_insert_eq, Hv. simpl. rewrite lookup_insert_eq. simpl.
  rewrite lookup_insert_ne by done.
  unfold header_map. destruct (http.Header v) as [h|] eqn:HH; simpl; [|done].
  destruct (Hh h eq_refl) as (hm & Hhm & Hsl). rewrite Hhm. simpl.
  destruct (hm !! k) as [sl|] eqn:Hsl'; simpl; [|done].
  f_equal. unfold slice_elems. simpl.
  destruct (arr sl) as [a|] eqn:Ha; [|done].
  destruct (Hsl k sl a Hsl' Ha) as [vs Hvs].
  rewrite lookup_insert_ne; [done|].
  intros <-. by rewrite fresh_dom_None in Hvs.
Qed.

Lemma authorized_copy (m : Mem) r v value :
  request_ok m r -> requests m !! r = Some v ->
  exists v2,
    requests (authorized m v value) !! fresh (dom (requests m)) = Some v2 /\
    http.Method v2 = http.Method v /\ http.URL v2 = http.URL v /\
    http.Body v2 = http.Body v /\
    http.Header v2 <> None /\ http.Header v2 <> http.Header v /\
    (forall k, k <> "Authorization" ->
               request_header (authorized m v value) (fresh (dom (requests m))) k
               = request_header m r k) /\
    request_header (authorized m v value) (fresh (dom (requests m))) "Authorization"
    = Some [value].
Proof.
  intros Hok Hv. eexists. split; [apply lookup_insert_eq|]. simpl.
  split; [done|]. split; [done|]. split; [done|]. split; [done|].
  split.
  { intros Heq. destruct (request_ok_lookup _ _ Hok) as (v' & Hv' & Hh).
    assert (v' = v) as -> by congruence.
    destruct (Hh _ (eq_sym Heq)) as [hm Hhm].
    by rewrite fresh_dom_None in Hhm. }
  split; [|apply authorized_header].
  intros k Hk. by apply authorized_other_header.
Qed.

(** X6.  What is dispatched is the request given, but for one header: the clone
    has the method, the URL and the body pointer of the original (the body
    is shared, not copied), a header map of its own, every header of the
    original other than [Authorization] with the same values, and exactly
    one [Authorization] value, which replaces any the original had. *)
Theorem RoundTrip_sends_copy_with_header s r res s' r2 :
  request_ok (mem s) r ->
  RoundTrip (R:=R) (Some r) s = Ok res s' ->
  last (trace s') = Some (EvDispatch r2) ->
  exists v v2 value,
    requests (mem s) !! r = Some v /\
    requests (mem s') !! r2 = Some v2 /\
    http.Method v2 = http.Method v /\ http.URL v2 = http.URL v /\
    http.Body v2 = http.Body v /\
    http.Header v2 <> None /\ http.Header v2 <> http.Header v /\
    (forall k, k <> "Authorization" ->
               request_header (mem s') r2 k = request_header (mem s) r k) /\
    request_header (mem s') r2 "Authorization" = Some [value].
Proof.
  intros Hok H Hlast.
  destruct (RoundTrip_sent_inv s r res s' r2 Hok H Hlast)
    as (h & v & value & Hv & Hm' & ->).
  rewrite Hm'. clear Hm' H Hlast.
  destruct (mem s) as [tk rq hd ar].
  change (set_tokens h (mkMem tk rq hd ar)) with (mkMem h rq hd ar).
  destruct (authorized_copy (mkMem h rq hd ar) r v value Hok Hv)
    as (v2 & H1 & H2 & H3 & H4 & H5 & H6 & H7 & H8).
  exists v, v2, value. split; [exact Hv|]. split; [exact H1|].
  split; [exact H2|]. split; [exact H3|]. split; [exact H4|].
  split; [exact H5|]. split; [exact H6|]. split; [exact H7|exact H8].
Qed.

(** X13.  Expiry is for good: a token that [Expired] reports expired is
    reported expired at every later reading of the clock, as long as the
    token object is the same. *)
Theorem Expired_stays_expired s s' l T :
  tokens (mem s) !! l = Some T -> tokens (mem s') !! l = Some T ->
  (time_Now (world s) <= time_Now (world s'))%Z ->
  Expired (Some l) s = Ok true s -> Expired (Some l) s' = Ok true s'.
Proof.
  intros HT HT' Hclock Hexp.
  destruct (Expired_eval s l T HT) as (b & Hb & Hiff).
  destruct (Expired_eval s' l T HT') as (b' & Hb' & Hiff').
  rewrite Hb in Hexp. injection Hexp as ->.
  rewrite Hb'. f_equal. apply Hiff'.
  eapply token_expired_mono; [exact Hclock|]. by apply Hiff.
Qed.

End MoreFacts.

(** ** More on concurrent round trips *)

Section MoreConcFacts.
Context {W R : Type} `{!TokenFetcher W} `{!RoundTripper W R} `{!Clock W}.
Implicit Types (s : State W) (g : goroutine R) (c : config W R).

Lemma sum_list_with_zero {A} (f : A -> nat) (l : list A) x :
  sum_list_with f l = 0 -> x ∈ l -> f x = 0.
Proof.
  intros Hsum Hin. apply list_elem_of_lookup in Hin as [i Hi].
  pose proof (sum_list_with_lookup f l i x Hi). lia.
Qed.

(** X9.  Calls of the fetcher never overlap, under any schedule: in every
    configuration that concurrent round trips reach from a free mutex, at
    most one goroutine is inside [FetchToken]; that goroutine holds the
    write lock, and no goroutine is reading the token under the read lock
    meanwhile. *)
Theorem fetch_never_interleaved s0 (reqs : list ptr) c :
  t_mu s0 = unlocked ->
  rtc cstep (start s0 reqs) c ->
  (forall i j gi gj,
      gs c !! i = Some gi -> gs c !! j = Some gj ->
      in_fetch (g_pc gi) = 1 -> in_fetch (g_pc gj) = 1 -> i = j) /\
  (forall g, g ∈ gs c -> in_fetch (g_pc g) = 1 ->
             t_mu (shared c) = mkMu true 0 /\
             forall g', g' ∈ gs c -> holds_read (g_pc g') = 0).
Proof.
  intros Hmu Hrtc.
  pose proof (lock_inv_rtc _ _ (lock_inv_start s0 reqs Hmu) Hrtc)
    as (Hw & Hr & Hwr).
  split.
  - intros i j gi gj Hi Hj Hgi Hgj.
    apply (sum_list_with_le_1 (fun g => in_fetch (g_pc g)) (gs c) i j gi gj);
      try done.
    etrans; [apply (sum_list_with_le _ (fun g => holds_write (g_pc g)))|].
    + intros x. apply in_fetch_holds_write.
    + rewrite Hw. destruct (writer _); lia.
  - intros g Hin Hg.
    assert (Hwt : writer (t_mu (shared c)) = true).
    { apply list_elem_of_lookup in Hin as [i Hi].
      pose proof (sum_list_with_lookup (fun g => holds_write (g_pc g)) (gs c) i g Hi) as Hle.
      pose proof (in_fetch_holds_write (g_pc g)). simpl in Hle.
      destruct (writer (t_mu (shared c))); [done|lia]. }
    specialize (Hwr Hwt). split.
    + destruct (t_mu (shared c)) as [wr rd]. simpl in *. by rewrite Hwt, Hwr.
    + intros g' Hin'. rewrite Hwr in Hr.
      by apply (sum_list_with_zero (fun g => holds_read (g_pc g)) (gs c) g').
Qed.

(** X10.  [N] concurrent round trips call the fetcher at most [N] times in all,
    under any schedule and whatever the fetcher returns: each round trip
    refreshes at most once. *)
Theorem fetch_calls_at_most_N s0 (reqs : list ptr) c :
  rtc cstep (start s0 reqs) c ->
  fetch_count (trace (shared c)) <= fetch_count (trace s0) + length reqs.
Proof.
  intros Hrtc. pose proof (fetch_potential_rtc _ _ Hrtc) as Hpot.
  rewrite may_fetch_start in Hpot. simpl in Hpot. lia.
Qed.

(** X11.  Concurrent round trips that start with the mutex free cannot deadlock
    and cannot run for ever, whatever the fetcher and the underlying
    transport return: while a goroutine has not finished some goroutine can
    step, no execution has more than [15 * N] steps, and when nothing can
    step every goroutine has returned or panicked. *)
Theorem round_trips_never_deadlock s0 (reqs : list ptr) c :
  t_mu s0 = unlocked ->
  rtc cstep (start s0 reqs) c ->
  ((exists g, g ∈ gs c /\ finished (g_pc g) = false) -> exists c', cstep c c') /\
  (forall n c', nsteps cstep n (start s0 reqs) c' -> n <= 15 * length reqs) /\
  ((forall c', ~ cstep c c') ->
   Forall (fun g => finished (g_pc g) = true) (gs c)).
Proof.
  intros Hmu Hrtc.
  pose proof (lock_inv_rtc _ _ (lock_inv_start s0 reqs Hmu) Hrtc) as Hlock.
  split; [|split].
  - intros (g & Hin & Hfin). by eapply progress.
  - intros n c' Hn. apply nsteps_bound in Hn.
    rewrite steps_left_start in Hn. lia.
  - intros Hquiet. apply Forall_forall. intros g Hin.
    destruct (finished (g_pc g)) eqn:Hf; [done|].
    destruct (progress c g Hlock Hin Hf) as [c' Hc']. by destruct (Hquiet c').
Qed.







End MoreConcFacts.

(** ** The provider *)

Section ProviderFacts.
Context {X Raw Net Body : Type}
  {CL : aps.ConfigLib X} {NW : aps.Network Net Body} {CD : aps.Codec Raw}.

Lemma set_Scopes_twice (sc sc' : list string) (c : aps.Config X) :
  aps.set_Scopes sc' (aps.set_Scopes sc c) = aps.set_Scopes sc' c.
Proof. reflexivity. Qed.

(** The loop of [newConfig] appends the scopes given, in order. *)
Lemma newConfig_loop (scopes : list string) (c : aps.Config X) :
  scopes <> [] ->
  foldl (fun c scope => aps.set_Scopes (aps.Scopes (aps.opts c) ++ [scope]) c)
        c scopes
  = aps.set_Scopes (aps.Scopes (aps.opts c) ++ scopes) c.
Proof.
  revert c. induction scopes as [|x scopes IH]; intros c Hne; [done|].
  destruct scopes as [|y scopes]; [done|].
  cbn [foldl]. cbn [foldl] in IH. rewrite IH by done.
  simpl. by rewrite <- app_assoc.
Qed.

(** X14.  The scopes of a new configuration.  When [NewConfig] returns a
    configuration without error: with no scopes given the scopes become
    [profile], [email], [openid], replacing those of the configuration;
    with scopes given, they are appended, in order, to those of the
    configuration; everything else in it is kept.  When [NewConfig] returns
    an error, what it returned is passed on, nil or not, and the scopes
    given are ignored. *)
Theorem newConfig_scopes (p : aps.Provider X) (scopes : list string) :
  (forall c,
      aps.NewConfig (aps.mkOptions (aps.ClientKey p) (aps.Secret p)
                                   (aps.CallbackURL p) [])
                    aps.authURL aps.tokenURL = (Some c, None) ->
      exists c',
        aps.newConfig p scopes = aps.Returns (Some c') /\
        aps.rest c' = aps.rest c /\
        aps.ClientID (aps.opts c') = aps.ClientID (aps.opts c) /\
        aps.ClientSecret (aps.opts c') = aps.ClientSecret (aps.opts c) /\
        aps.RedirectURL (aps.opts c') = aps.RedirectURL (aps.opts c) /\
        aps.Scopes (aps.opts c')
        = match scopes with
          | [] => ["profile"; "email"; "openid"]
          | _ => aps.Scopes (aps.opts c) ++ scopes
          end) /\
  (forall c e,
      aps.NewConfig (aps.mkOptions (aps.ClientKey p) (aps.Secret p)
                                   (aps.CallbackURL p) [])
                    aps.authURL aps.tokenURL = (c, Some e) ->
      aps.newConfig p scopes = aps.Returns c).
Proof.
  split.
  - intros c HN. unfold aps.newConfig. rewrite HN.
    destruct scopes as [|x scopes].
    + eexists. split; [reflexivity|]. by repeat split.
    + rewrite decide_True by (simpl; lia).
      rewrite newConfig_loop by done.
      eexists. split; [reflexivity|]. by repeat split.
  - intros c e HN. unfold aps.newConfig. by rewrite HN.
Qed.

(** X15.  [SetPrompt] has no effect on [BeginAuth]: the option it stores is
    put in a list that [AuthCodeURL] is not given, so the session and the
    error are those of the provider as it was.  The session is returned with
    the URL alone, also when there is an error.  [SetPrompt] itself does
    nothing when called without values (it cannot clear a prompt), and
    otherwise stores the values joined by spaces, leaving the rest of the
    provider as it is. *)
Theorem SetPrompt_not_used_by_BeginAuth (p : aps.Provider X)
    (values : list string) (state : string) :
  aps.BeginAuth (aps.SetPrompt values p) state = aps.BeginAuth p state /\
  aps.BeginAuth p state
  = (aps.mkSession (aps.AuthCodeURL (aps.config p) state).1 "" "" 0%Z,
     (aps.AuthCodeURL (aps.config p) state).2) /\
  aps.SetPrompt [] p = p /\
  aps.config (aps.SetPrompt values p) = aps.config p /\
  (values <> [] ->
   aps.prompt (aps.SetPrompt values p)
   = Some (aps.SetAuthURLParam "prompt" (strings.Join values " "))).
Proof.
  split; [|split; [|split; [|split]]].
  - unfold aps.BeginAuth, aps.SetPrompt. by destruct (decide _).
  - unfold aps.BeginAuth. by destruct (aps.AuthCodeURL _ _).
  - reflexivity.
  - unfold aps.SetPrompt. by destruct (decide _).
  - intros Hne. unfold aps.SetPrompt. destruct values; [done|].
    by rewrite decide_False.
Qed.

(** X16.  [FetchUser] makes one request, to the profile endpoint with the
    escaped access token, and never leaks the response: if [http.Get]
    returned a response its body is closed exactly once, as the last call,
    whether [http.Get], [ReadAll] or a decoding failed or all went well;
    the body is read at most once, and only when [http.Get] returned no
    error. *)
Theorem FetchUser_closes_body (p : aps.Provider X) (sess : aps.Session)
    (net net' : Net) (log log' : list (aps.NetEvent Body))
    (user : goth.User Raw) (err : error) :
  aps.FetchUser p (aps.aps_session sess) net log
    = aps.Returns (user, err, net', log') ->
  let url := aps.endpointProfile +:+ "?access_token="
             +:+ aps.QueryEscape (aps.AccessToken sess) in
  match aps.http_Get net url with
  | (_, (None, e)) => e = err /\ err <> None /\ log' = log ++ [aps.NGet url]
  | (_, (Some body, Some e)) =>
      err = Some e /\ log' = log ++ [aps.NGet url; aps.NClose body]
  | (_, (Some body, None)) =>
      log' = log ++ [aps.NGet url; aps.NReadAll body; aps.NClose body]
  end.
Proof.
  unfold aps.FetchUser. cbv zeta.
  destruct (aps.http_Get net _) as [net1 [[body|] [e|]]].
  - intros [= <- <- <- <-]. split; [done|]. by rewrite <- app_assoc.
  - destruct (aps.ioutil_ReadAll net1 body) as [net2 [bits [e|]]].
    + intros [= <- <- <- <-]. simpl. by rewrite <- !app_assoc.
    + destruct (aps.decode_raw bits) as [raw [e|]].
      * intros [= <- <- <- <-]. simpl. by rewrite <- !app_assoc.
      * destruct (aps.userFromReader _ _) as [user' err'].
        intros [= <- <- <- <-]. simpl. by rewrite <- !app_assoc.
  - by intros [= <- <- <- <-].
  - discriminate.
Qed.

(** X17.  The user [FetchUser] returns.  On every path it carries the provider
    name [aps] and the session's access token, refresh token and expiry, and
    no description, location or token secret.  With an error, none of the
    profile fields is set.  Without one, the body decoded twice: the raw
    data, and the profile, from which name, nickname (the name again), given
    and family name, email, picture and id are taken; the link is decoded
    and dropped. *)
Theorem FetchUser_user (p : aps.Provider X) (sess : aps.Session)
    (net net' : Net) (log log' : list (aps.NetEvent Body))
    (user : goth.User Raw) (err : error) :
  aps.FetchUser p (aps.aps_session sess) net log
    = aps.Returns (user, err, net', log') ->
  goth.Provider user = "aps" /\
  goth.AccessToken user = aps.AccessToken sess /\
  goth.RefreshToken user = aps.RefreshToken sess /\
  goth.ExpiresAt user = aps.ExpiresAt sess /\
  goth.AccessTokenSecret user = "" /\
  goth.Description user = "" /\ goth.Location user = "" /\
  (err <> None ->
   goth.Name user = "" /\ goth.NickName user = "" /\
   goth.FirstName user = "" /\ goth.LastName user = "" /\
   goth.Email user = "" /\ goth.AvatarURL user = "" /\ goth.UserID user = "") /\
  (err = None ->
   exists bits u raw,
     aps.decode_raw bits = (raw, None) /\
     aps.decode_profile bits = (u, None) /\
     goth.RawData user = raw /\
     goth.Name user = aps.p_name u /\ goth.NickName user = aps.p_name u /\
     goth.FirstName user = aps.p_given_name u /\
     goth.LastName user = aps.p_family_name u /\
     goth.Email user = aps.p_email u /\
     goth.AvatarURL user = aps.p_picture u /\
     goth.UserID user = aps.p_id u).
Proof.
  unfold aps.FetchUser. cbv zeta.
  destruct (aps.http_Get net _) as [net1 [[body|] [e|]]].
  - intros [= <- <- <- <-]. simpl. by repeat split.
  - destruct (aps.ioutil_ReadAll net1 body) as [net2 [bits [e|]]].
    + intros [= <- <- <- <-]. simpl. by repeat split.
    + destruct (aps.decode_raw bits) as [raw [e|]] eqn:Hraw.
      * intros [= <- <- <- <-]. simpl. by repeat split.
      * unfold aps.userFromReader.
        destruct (aps.decode_profile bits) as [u [e|]] eqn:Hu.
        -- intros [= <- <- <- <-]. simpl. by repeat split.
        -- intros [= <- <- <- <-]. simpl. repeat split; try done.
           intros _. by exists bits, u, raw.
  - intros [= <- <- <- <-]. simpl. by repeat split.
  - discriminate.
Qed.

End ProviderFacts.

(** ** The further statements on the concrete transport and provider *)

Lemma SetToken_then_Token_witness :
  exists s1 q s2,
    SetToken (Some 2%positive) demo_valid = Ok tt s1 /\
    Token s1 = Ok (Some q) s2 /\
    tokens (mem s2) !! q = Some demo_old_token.
Proof.
  assert (Hok : forall l, Some 2%positive = Some l ->
                          is_Some (tokens (mem demo_valid) !! l)).
  { intros l [= <-]. by eexists. }
  destruct (SetToken_then_Token demo_valid (Some 2%positive) eq_refl Hok)
    as (s1 & Hset & _ & _ & _ & _ & _ & Hget).
  cbv beta iota in Hget.
  destruct Hget as (T & q & s2 & HT & Hcall & _ & Hq & _).
  vm_compute in HT. injection HT as <-.
  exists s1, q, s2. split; [exact Hset|]. split; [exact Hcall|exact Hq].
Defined.

Lemma SetToken_keeps_pointer_witness :
  exists s1 s2 q s3,
    SetToken (Some 2%positive) demo_valid = Ok tt s1 /\
    store_token (Some 2%positive) demo_token s1 = Ok tt s2 /\
    Token s2 = Ok (Some q) s3 /\
    tokens (mem s3) !! q = Some demo_token.
Proof.
  apply (SetToken_keeps_pointer demo_valid 2%positive demo_old_token demo_token);
    reflexivity.
Defined.

Lemma RefreshToken_always_fetches_witness :
  holds_valid (Clock0 := demo_clock) demo_valid demo_token /\
  exists s',
    RefreshToken (TokenFetcher0 := demo_fetcher) demo_valid = Ok None s' /\
    trace s' = [EvFetch (Some 1%positive)] /\
    t_token s' = Some 3%positive.
Proof.
  split; [exact demo_valid_holds|].
  destruct (RefreshToken_always_fetches (TokenFetcher0 := demo_fetcher)
              demo_valid 100%Z
              (FetchToken (TokenFetcher := demo_fetcher) 100%Z
                          (tokens demo_mem) (Some 1%positive)).1.2
              (Some 3%positive) None eq_refl)
    as (s' & Hcall & Htr & _ & _ & _ & _ & _ & _ & _ & Htok & _);
    [vm_compute; reflexivity|].
  exists s'. split; [exact Hcall|]. split; [exact Htr|]. exact (Htok eq_refl).
Defined.

Lemma NewAuthorizedTransport_first_use_witness :
  exists res r2 s',
    RoundTrip (TokenFetcher0 := demo_fetcher) (RoundTripper0 := demo_transport)
              (Clock0 := demo_clock) (Some 1%positive)
              (NewAuthorizedTransport None demo_valid) = Ok res s' /\
    trace s' = [EvFetch None; EvDispatch r2] /\
    request_header (mem s') r2 "Authorization" = Some ["Bearer fresh"].
Proof.
  destruct (NewAuthorizedTransport_first_use
              (TokenFetcher0 := demo_fetcher) (RoundTripper0 := demo_transport)
              (Clock0 := demo_clock) demo_valid 1%positive
              (fetcher_answer (TokenFetcher0 := demo_fetcher)
                 (NewAuthorizedTransport None demo_valid)).1.1
              (fetcher_answer (TokenFetcher0 := demo_fetcher)
                 (NewAuthorizedTransport None demo_valid)).1.2
              3%positive (oauth2.mkToken "fresh" "" "rt" 0%Z)
              demo_request_ok)
    as (_ & res & r2 & s' & Hcall & Htr & _ & _ & _ & Hhdr);
    [vm_compute; reflexivity|vm_compute; reflexivity|].
  exists res, r2, s'. split; [exact Hcall|]. split; [exact Htr|exact Hhdr].
Defined.

Lemma second_RoundTrip_reuses_token_witness :
  exists res r2 s1 res' r3 s2,
    RoundTrip (TokenFetcher0 := demo_fetcher) (RoundTripper0 := demo_transport)
              (Clock0 := demo_clock) (Some 1%positive) demo_expired = Ok res s1 /\
    RoundTrip (TokenFetcher0 := demo_fetcher) (RoundTripper0 := demo_transport)
              (Clock0 := demo_clock) (Some 1%positive) s1 = Ok res' s2 /\
    trace s1 = [EvFetch (Some 2%positive); EvDispatch r2] /\
    trace s2 = trace s1 ++ [EvDispatch r3].
Proof.
  destruct (second_RoundTrip_reuses_token
              (TokenFetcher0 := demo_fetcher) (RoundTripper0 := demo_transport)
              (Clock0 := demo_clock) demo_expired 1%positive
              (fetcher_answer (TokenFetcher0 := demo_fetcher) demo_expired).1.1
              (fetcher_answer (TokenFetcher0 := demo_fetcher) demo_expired).1.2
              4%positive (oauth2.mkToken "fresh" "" "rt" 0%Z)
              eq_refl demo_expired_stale demo_request_ok)
    as (res & r2 & s1 & Hcall & Htr & Hnext);
    [vm_compute; reflexivity|vm_compute; reflexivity|].
  destruct Hnext as (res' & r3 & s2 & Hcall' & Htr' & _).
  { intros [H|[H _]]; [discriminate H|by apply H]. }
  exists res, r2, s1, res', r3, s2.
  split; [exact Hcall|]. split; [exact Hcall'|]. split; [exact Htr|exact Htr'].
Defined.

Lemma mutex_released_witness :
  exists res s',
    RoundTrip (TokenFetcher0 := demo_fetcher) (RoundTripper0 := demo_transport)
              (Clock0 := demo_clock) (Some 1%positive) demo_expired = Ok res s' /\
    t_mu s' = unlocked.
Proof.
  destruct (RoundTrip (TokenFetcher0 := demo_fetcher)
              (RoundTripper0 := demo_transport) (Clock0 := demo_clock)
              (Some 1%positive) demo_expired) as [res s'|f] eqn:Hcall;
    [|vm_compute in Hcall; discriminate Hcall].
  exists res, s'. split; [reflexivity|].
  exact (proj2 (proj2 (proj2 (mutex_released
           (TokenFetcher0 := demo_fetcher) (RoundTripper0 := demo_transport)
           (Clock0 := demo_clock) demo_expired))) _ _ _ Hcall).
Defined.

Lemma RoundTrip_nil_request_witness :
  RoundTrip (TokenFetcher0 := demo_fetcher) (RoundTripper0 := demo_transport)
            (Clock0 := demo_clock) None demo_valid = Fault NilDeref.
Proof.
  exact (proj1 (RoundTrip_nil_request
           (TokenFetcher0 := demo_fetcher) (RoundTripper0 := demo_transport)
           (Clock0 := demo_clock) demo_valid) demo_token eq_refl demo_valid_holds).
Defined.

Lemma RoundTrip_sends_copy_with_header_witness :
  exists res s' r2,
    RoundTrip (TokenFetcher0 := demo_fetcher) (RoundTripper0 := demo_transport)
              (Clock0 := demo_clock) (Some 1%positive) demo_valid = Ok res s' /\
    last (trace s') = Some (EvDispatch r2) /\
    request_header (mem s') r2 "Accept" = Some ["text/html"] /\
    exists value, request_header (mem s') r2 "Authorization" = Some [value].
Proof.
  destruct (RoundTrip_valid_sent (TokenFetcher0 := demo_fetcher)
              (RoundTripper0 := demo_transport) (Clock0 := demo_clock)
              demo_valid 1%positive demo_request demo_token eq_refl
              demo_valid_holds eq_refl) as (h & Hcall).
  { intros hd [= <-]. by eexists. }
  cbv zeta in Hcall.
  match type of Hcall with
  | _ = Ok ?res ?st =>
      assert (Hlast : last (trace st)
                      = Some (EvDispatch (fresh (dom (requests (mem demo_valid))))))
        by apply last_snoc;
      destruct (RoundTrip_sends_copy_with_header
                  (TokenFetcher0 := demo_fetcher) (RoundTripper0 := demo_transport)
                  (Clock0 := demo_clock) demo_valid 1%positive res st _
                  demo_request_ok Hcall Hlast)
        as (v & v2 & value & _ & _ & _ & _ & _ & _ & _ & Hother & Hauth);
      exists res, st, (fresh (dom (requests (mem demo_valid))))
  end.
  split; [exact Hcall|]. split; [exact Hlast|].
  split; [|by exists value].
  etrans; [apply Hother; discriminate|vm_compute; reflexivity].
Defined.

Lemma fetch_never_interleaved_witness :
  t_mu demo_expired = unlocked /\
  t_mu (shared demo_midfetch) = mkMu true 0.
Proof.
  split; [reflexivity|].
  destruct (fetch_never_interleaved
              (TokenFetcher0 := demo_fetcher) (RoundTripper0 := demo_transport)
              (Clock0 := demo_clock) demo_expired demo_reqs demo_midfetch
              eq_refl (run_schedule_rtc _ _)) as [_ Hheld].
  assert (Hg : gs demo_midfetch !! 0
               = Some (mkG (Some 1%positive) (InFetch (Some 2%positive))))
    by (vm_compute; reflexivity).
  apply (Hheld _ (list_elem_of_lookup_2 _ _ _ Hg) eq_refl).
Defined.

Lemma fetch_calls_at_most_N_witness :
  fetch_count (trace (shared demo_done)) <= 2.
Proof.
  exact (fetch_calls_at_most_N
           (TokenFetcher0 := demo_fetcher) (RoundTripper0 := demo_transport)
           (Clock0 := demo_clock) demo_expired demo_reqs demo_done
           (run_schedule_rtc _ _)).
Defined.

Lemma round_trips_never_deadlock_witness :
  t_mu demo_expired = unlocked /\
  (exists c', cstep (TokenFetcher0 := demo_fetcher)
                    (RoundTripper0 := demo_transport) (Clock0 := demo_clock)
                    demo_midfetch c') /\
  Forall (fun g => finished (g_pc g) = true) (gs demo_failed).
Proof.
  split; [reflexivity|]. split.
  - destruct (round_trips_never_deadlock
                (TokenFetcher0 := demo_fetcher) (RoundTripper0 := demo_transport)
                (Clock0 := demo_clock) demo_expired demo_reqs demo_midfetch
                eq_refl (run_schedule_rtc _ _)) as [Hprog _].
    apply Hprog.
    assert (Hg : gs demo_midfetch !! 0
                 = Some (mkG (Some 1%positive) (InFetch (Some 2%positive))))
      by (vm_compute; reflexivity).
    eexists. split; [exact (list_elem_of_lookup_2 _ _ _ Hg)|reflexivity].
  - destruct (round_trips_never_deadlock
                (TokenFetcher0 := failing_fetcher) (RoundTripper0 := demo_transport)
                (Clock0 := demo_clock) demo_expired demo_reqs demo_failed
                eq_refl (run_schedule_rtc _ _)) as (_ & _ & Hquiet).
    apply Hquiet. apply finished_quiescent. exact demo_failed_finished.
Defined.


(** With a transport that refuses every request, the same schedule ends
    with both round trips returning the error of the transport. *)
Lemma round_trips_pass_on_dispatch_error :
  Forall (fun g => g_pc g = Returned (None, Some "connection refused"))
         (gs demo_refused).
Proof. vm_compute. repeat constructor. Qed.

Lemma Expired_stays_expired_witness :
  Expired (Clock0 := demo_clock) (Some 2%positive) demo_expired
    = Ok true demo_expired /\
  Expired (Clock0 := demo_clock) (Some 2%positive)
          (mkState demo_mem (Some 2%positive) unlocked 200%Z [])
    = Ok true (mkState demo_mem (Some 2%positive) unlocked 200%Z []).
Proof.
  assert (H : Expired (Clock0 := demo_clock) (Some 2%positive) demo_expired
              = Ok true demo_expired) by reflexivity.
  split; [exact H|].
  apply (Expired_stays_expired (Clock0 := demo_clock) demo_expired _
           2%positive demo_old_token); [reflexivity|reflexivity| |exact H].
  unfold time_Now, demo_clock. simpl. lia.
Defined.

Lemma newConfig_scopes_witness :
  (exists c',
      aps.newConfig (CL := demo_ConfigLib) demo_provider []
        = aps.Returns (Some c') /\
      aps.Scopes (aps.opts c') = ["profile"; "email"; "openid"]) /\
  (exists c',
      aps.newConfig (CL := demo_ConfigLib) demo_provider ["a"; "b"]
        = aps.Returns (Some c') /\
      aps.Scopes (aps.opts c') = ["a"; "b"]).
Proof.
  split.
  - destruct (proj1 (newConfig_scopes (CL := demo_ConfigLib)
                       demo_provider []) _ eq_refl)
      as (c' & Hcall & _ & _ & _ & _ & Hsc).
    by exists c'.
  - destruct (proj1 (newConfig_scopes (CL := demo_ConfigLib)
                       demo_provider ["a"; "b"]) _ eq_refl)
      as (c' & Hcall & _ & _ & _ & _ & Hsc).
    by exists c'.
Defined.

Lemma SetPrompt_not_used_by_BeginAuth_witness :
  aps.prompt (aps.SetPrompt ["select_account"; "consent"] demo_provider)
  = Some (aps.SetAuthURLParam "prompt" "select_account consent") /\
  aps.BeginAuth (CL := demo_ConfigLib)
                (aps.SetPrompt ["select_account"; "consent"] demo_provider) "xyz"
  = aps.BeginAuth (CL := demo_ConfigLib) demo_provider "xyz".
Proof.
  destruct (SetPrompt_not_used_by_BeginAuth (CL := demo_ConfigLib)
              demo_provider ["select_account"; "consent"] "xyz")
    as (Hsame & _ & _ & _ & Hprompt).
  split; [|exact Hsame]. by apply Hprompt.
Defined.

Lemma FetchUser_closes_body_witness :
  exists user err net' log',
    aps.FetchUser (NW := demo_Network) (CD := demo_Codec)
                  demo_provider (aps.aps_session demo_session) 0 []
      = aps.Returns (user, err, net', log') /\
    log' = [aps.NGet "http://localhost:9096/userinfo?access_token=tok";
            aps.NReadAll 7; aps.NClose 7].
Proof.
  eexists _, _, _, _. split; [reflexivity|].
  exact (FetchUser_closes_body (NW := demo_Network) (CD := demo_Codec)
           demo_provider demo_session 0 _ [] _ _ _ eq_refl).
Defined.

Lemma FetchUser_user_witness :
  exists user net' log',
    aps.FetchUser (NW := demo_Network) (CD := demo_Codec)
                  demo_provider (aps.aps_session demo_session) 0 []
      = aps.Returns (user, None, net', log') /\
    goth.Provider user = "aps" /\ goth.AccessToken user = "tok" /\
    goth.Description user = "".
Proof.
  eexists _, _, _. split; [reflexivity|].
  destruct (FetchUser_user (NW := demo_Network) (CD := demo_Codec)
              demo_provider demo_session 0 _ [] _ _ _ eq_refl)
    as (H1 & H2 & _ & _ & _ & H3 & _).
  split; [exact H1|]. split; [exact H2|exact H3].
Defined.
